(** * pestalarm: the rule evaluator, the weather client and the check sweep

    A shallow embedding of [app.py].  Python values are a small universe of
    JSON-shaped data, exceptions are an error monad, the database session is
    an explicit state, and the weather provider and the clock are oracles
    indexed by the position of the farm in the sweep. *)

From Stdlib Require Import ZArith String List Sorting.Sorted.
From Stdlib Require Import Floats.SpecFloat.
From stdpp Require Import gmap strings list fin_maps sorting.

Set Warnings "-register-all".

Local Open Scope string_scope.
Local Open Scope Z_scope.
Local Open Scope list_scope.

(** ** Python values *)

(** What [r.json()] can produce, and what the dictionaries of the program
    hold.  Floats are IEEE binary64 values in the Standard Library's
    specification format. *)
Inductive pyval : Type :=
| PNone
| PBool (b : bool)
| PInt (z : Z)
| PFloat (f : spec_float)
| PStr (s : string)
| PList (l : list pyval)
| PDict (d : gmap string pyval).

Inductive exn : Type :=
| TypeError
| AttributeError
| WeatherFetchError
| HTTPException (status_code : Z) (detail : string).

(** Outcome of an expression that may raise. *)
Inductive res (A : Type) : Type :=
| Ok (a : A)
| Raise (e : exn).
Arguments Ok {A} a.
Arguments Raise {A} e.

(** The error monad, with stdpp's [x ← m; k] notation. *)
#[global] Instance res_ret : MRet res := fun _ a => Ok a.
#[global] Instance res_bind : MBind res := fun _ _ k m =>
  match m with
  | Ok a => k a
  | Raise e => Raise e
  end.

(** [a and b] on conditions that may raise: [b] is evaluated only when [a]
    is true. *)
Definition and_then (a b : res bool) : res bool :=
  match a with
  | Ok true => b
  | Ok false => Ok false
  | Raise e => Raise e
  end.
Infix "&&&" := and_then (at level 40, left associativity).

(** ** Comparisons against integer literals *)

(** Exact comparison of a float with an integer, as CPython compares a
    [float] with an [int]; [None] stands for "unordered" (NaN). *)
Definition float_cmp_int (f : spec_float) (c : Z) : option comparison :=
  match f with
  | S754_nan => None
  | S754_infinity false => Some Gt
  | S754_infinity true => Some Lt
  | S754_zero _ => Some (0 ?= c)
  | S754_finite s m e =>
      let v := if s then Z.neg m else Z.pos m in
      if 0 <=? e then Some (v * 2 ^ e ?= c) else Some (v ?= c * 2 ^ (- e))
  end.

(** Ordering of a value against an integer literal.  [bool] is a subclass
    of [int]; every other non-numeric type raises [TypeError]. *)
Definition cmp_int (v : pyval) (c : Z) : res (option comparison) :=
  match v with
  | PBool b => Ok (Some (Z.b2z b ?= c))
  | PInt z => Ok (Some (z ?= c))
  | PFloat f => Ok (float_cmp_int f c)
  | PNone | PStr _ | PList _ | PDict _ => Raise TypeError
  end.

Definition is_cmp (o : option comparison) (c : comparison) : bool :=
  match o, c with
  | Some Lt, Lt | Some Eq, Eq | Some Gt, Gt => true
  | _, _ => false
  end.

(** [v > c], [v < c], [v <= c] and [c <= v]. *)
Definition py_gt (v : pyval) (c : Z) : res bool :=
  o ← cmp_int v c; Ok (is_cmp o Gt).
Definition py_lt (v : pyval) (c : Z) : res bool :=
  o ← cmp_int v c; Ok (is_cmp o Lt).
Definition py_le (v : pyval) (c : Z) : res bool :=
  o ← cmp_int v c; Ok (is_cmp o Lt || is_cmp o Eq).
Definition py_ge (v : pyval) (c : Z) : res bool :=
  o ← cmp_int v c; Ok (is_cmp o Gt || is_cmp o Eq).

(** Truth value of an object. *)
Definition truthy (v : pyval) : bool :=
  match v with
  | PNone => false
  | PBool b => b
  | PInt z => negb (z =? 0)
  | PFloat (S754_zero _) => false
  | PFloat _ => true
  | PStr s => negb (String.eqb s "")
  | PList l => match l with [] => false | _ => true end
  | PDict d => negb (bool_decide (d = ∅))
  end.

(** [a or b] on values. *)
Definition py_or (a b : pyval) : pyval := if truthy a then a else b.

Definition is_none (v : pyval) : bool :=
  match v with PNone => true | _ => false end.

(** [d.get(k)] and [d.get(k, dflt)] on a dictionary. *)
Definition dict_get (d : gmap string pyval) (k : string) : pyval :=
  default PNone (d !! k).
Definition dict_get_or (d : gmap string pyval) (k : string) (dflt : pyval) : pyval :=
  default dflt (d !! k).

(** ** The rule evaluator *)

Definition POWDERY : string := "Powdery mildew (possible)".
Definition APHIDS : string := "Aphids (possible)".
Definition GRAY_MOLD : string := "Gray mold / Botrytis (possible)".

Definition append_if (c : bool) (pests : list string) (label : string) : list string :=
  if c then pests ++ [label] else pests.

Definition evaluate_rules (weather : gmap string pyval) : res (list string) :=
  let pests := [] in
  let temp := dict_get weather "temperature" in
  let hum := dict_get weather "humidity" in
  let rain := py_or (dict_get_or weather "rain_mm" (PInt 0)) (PInt 0) in
  if negb (is_none hum) && negb (is_none temp) then
    c1 ← py_gt hum 80 &&& (py_ge temp 20 &&& py_le temp 28);
    let pests := append_if c1 pests POWDERY in
    c2 ← py_gt temp 30 &&& py_lt hum 40;
    let pests := append_if c2 pests APHIDS in
    c3 ← py_gt hum 85 &&& py_gt rain 5;
    let pests := append_if c3 pests GRAY_MOLD in
    Ok pests
  else Ok pests.

(** ** Weather readings *)

Definition is_number (v : pyval) : bool :=
  match v with
  | PBool _ | PInt _ | PFloat _ => true
  | _ => false
  end.

Definition number_or_none (v : pyval) : bool := is_number v || is_none v.

Definition temperature (w : gmap string pyval) : pyval := dict_get w "temperature".
Definition humidity (w : gmap string pyval) : pyval := dict_get w "humidity".
Definition rain_mm (w : gmap string pyval) : pyval := dict_get_or w "rain_mm" (PInt 0).

(** A normalized weather reading: temperature and humidity are numbers or
    absent, the rain accumulation is a number (or absent, read as 0). *)
Definition reading (w : gmap string pyval) : Prop :=
  number_or_none (temperature w) ∧ number_or_none (humidity w) ∧
  number_or_none (rain_mm w).

Definition mk_weather (t h r : pyval) : gmap string pyval :=
  {[ "temperature" := t; "humidity" := h; "rain_mm" := r ]}.

(** ** The database *)

Record Farm : Type := {
  farm_id : Z;
  farm_name : string;
  latitude : spec_float;
  longitude : spec_float
}.

(** [timestamp] counts microseconds, the resolution of [datetime]; the
    column default sets it at insertion, so the rows the program writes
    always have one. *)
Record Alert : Type := {
  alert_id : Z;
  alert_farm_id : Z;
  message : string;
  timestamp : Z
}.

(** The two tables in row order, and the log of the requests sent to the
    weather provider. *)
Record world : Type := {
  farms : list Farm;
  alerts : list Alert;
  requests : list (spec_float * spec_float)
}.

(** The key SQLite assigns to a new row: one more than the largest one. *)
Definition next_alert_id (rows : list Alert) : Z :=
  1 + foldr Z.max 0 (alert_id <$> rows).

(** ** The HTTP surface *)

(** Status of the response the framework sends: an [HTTPException] carries
    its own, any other exception that leaves the handler is a server
    error. *)
Definition status_code {A} (r : res A) : Z :=
  match r with
  | Ok _ => 200
  | Raise (HTTPException c _) => c
  | Raise _ => 500
  end.

Definition INTERNAL_TOKEN : string := "my-secret-token".

(** [ORDER BY timestamp DESC]: rows with equal timestamps keep row order. *)
Definition newer_first (a b : Alert) : Prop := timestamp b ≤ timestamp a.

#[global] Instance newer_first_dec (a b : Alert) : Decision (newer_first a b) :=
  Z_le_dec (timestamp b) (timestamp a).

Definition list_alerts (w : world) : list Alert :=
  take 100 (merge_sort newer_first (alerts w)).

(** [sub in s] on strings. *)
Fixpoint contains (sub s : string) : bool :=
  String.prefix sub s ||
  match s with
  | EmptyString => false
  | String _ s' => contains sub s'
  end.

Section service.

(** The provider: what lines 72-75 deliver for the [i]-th farm of a sweep,
    the parsed JSON body, or [None] when the request, the status check or
    the parsing raises. *)
Variable http_get : nat → spec_float → spec_float → option pyval.

(** The clock: the default timestamp of an alert inserted for the [i]-th
    farm of a sweep. *)
Variable utcnow : nat → Z.

(** ** The weather client *)

(** The receiver of [.get]: only a dictionary has the method. *)
Definition as_dict (v : pyval) : res (gmap string pyval) :=
  match v with
  | PDict d => Ok d
  | _ => Raise AttributeError
  end.

(** Lines 76-85, on the parsed body. *)
Definition normalize (data : pyval) : res (gmap string pyval) :=
  d ← as_dict data;
  let main := dict_get_or d "main" (PDict ∅) in
  let rain := PInt 0 in
  let rain :=
    match d !! "rain" with
    | Some (PDict r) => dict_get_or r "1h" (PInt 0)
    | Some _ => PInt 0
    | None => rain
    end in
  m ← as_dict main;
  Ok {[ "temperature" := dict_get m "temp";
        "humidity" := dict_get m "humidity";
        "rain_mm" := rain;
        "raw" := data ]}.

Definition get_weather (i : nat) (lat lon : spec_float) : res (gmap string pyval) :=
  match http_get i lat lon with
  | None => Raise WeatherFetchError
  | Some data => normalize data
  end.

(** ** The check sweep *)

Definition compose_message (farm : Farm) (pests : list string) : string :=
  ("Farm '" ++ farm_name farm ++ "' potential pests: " ++ String.concat "; " pests)%string.

Definition coords (farm : Farm) : spec_float * spec_float :=
  (latitude farm, longitude farm).

Definition log_request (farm : Farm) (w : world) : world :=
  {| farms := farms w;
     alerts := alerts w;
     requests := requests w ++ [coords farm] |}.

(** [db.add(alert); db.commit()] *)
Definition add_alert (i : nat) (farm : Farm) (msg : string) (w : world) : world :=
  {| farms := farms w;
     alerts := alerts w ++ [ {| alert_id := next_alert_id (alerts w);
                                alert_farm_id := farm_id farm;
                                message := msg;
                                timestamp := utcnow i |} ];
     requests := requests w |}.

(** The body of the loop for the [i]-th farm. *)
Definition check_farm (i : nat) (farm : Farm) (w : world) : res unit * world :=
  let w := log_request farm w in
  match get_weather i (latitude farm) (longitude farm) with
  | Raise e => (Raise e, w)
  | Ok weather =>
      match evaluate_rules weather with
      | Raise e => (Raise e, w)
      | Ok [] => (Ok (), w)
      | Ok pests => (Ok (), add_alert i farm (compose_message farm pests) w)
      end
  end.

(** [for farm in farms: ...], from position [i] on. *)
Fixpoint sweep (i : nat) (fs : list Farm) (w : world) : res unit * world :=
  match fs with
  | [] => (Ok (), w)
  | farm :: fs' =>
      match check_farm i farm w with
      | (Ok _, w') => sweep (S i) fs' w'
      | (Raise e, w') => (Raise e, w')
      end
  end.

Definition run_checks (token : option string) (w : world)
  : res (gmap string pyval) * world :=
  if bool_decide (token ≠ Some INTERNAL_TOKEN) then
    (Raise (HTTPException 403 "forbidden"), w)
  else
    let fs := farms w in
    match sweep 0 fs w with
    | (Raise e, w') => (Raise e, w')
    | (Ok _, w') =>
        (Ok {[ "status" := PStr "done";
               "checked" := PInt (Z.of_nat (length fs)) ]}, w')
    end.

(** The [i]-th fetch of a sweep returns the normalized reading [weather]. *)
Definition fetch_reading (i : nat) (farm : Farm) (weather : gmap string pyval) : Prop :=
  get_weather i (latitude farm) (longitude farm) = Ok weather ∧ reading weather.

Definition fetch_succeeds (i : nat) (farm : Farm) : Prop :=
  ∃ weather, fetch_reading i farm weather.

(** The alert the sweep writes for the [i]-th farm on labels [pests], as
    the last row of table [rows]. *)
Definition alert_for (i : nat) (farm : Farm) (pests : list string) (rows : list Alert) : Alert :=
  {| alert_id := next_alert_id rows;
     alert_farm_id := farm_id farm;
     message := compose_message farm pests;
     timestamp := utcnow i |}.

End service.

(** What can leave the loop is never an [HTTPException]. *)
Definition loop_error (e : exn) : Prop :=
  e = TypeError ∨ e = AttributeError ∨ e = WeatherFetchError.

(** ** Sample inputs *)

(** 90.5 and 5.5 as floats, and some readings. *)
Definition f90_5 : spec_float := S754_finite false 181 (-1).
Definition f5_5 : spec_float := S754_finite false 11 (-1).

Definition reading_warm_wet : gmap string pyval :=
  mk_weather (PInt 25) (PFloat f90_5) (PFloat f5_5).

Definition reading_without_temperature : gmap string pyval :=
  {[ "humidity" := PInt 90; "rain_mm" := PInt 10 ]}.

Definition reading_without_humidity : gmap string pyval :=
  {[ "temperature" := PInt 25; "rain_mm" := PStr "heavy" ]}.

(** A provider body with temperature 25, humidity 90 and 10 mm of rain. *)
Definition main_warm_wet : gmap string pyval :=
  {[ "temp" := PInt 25; "humidity" := PInt 90 ]}.

Definition body_warm_wet : gmap string pyval :=
  {[ "main" := PDict main_warm_wet; "rain" := PDict {[ "1h" := PInt 10 ]} ]}.

Definition payload_warm_wet : pyval := PDict body_warm_wet.

(** The reading the client makes of it. *)
Definition reading_of_payload : gmap string pyval :=
  {[ "temperature" := PInt 25; "humidity" := PInt 90; "rain_mm" := PInt 10;
     "raw" := payload_warm_wet ]}.

Definition provider_warm_wet (i : nat) (lat lon : spec_float) : option pyval :=
  Some payload_warm_wet.

(** A provider that answers the first request and fails from then on. *)
Definition provider_once (i : nat) (lat lon : spec_float) : option pyval :=
  match i with
  | O => Some payload_warm_wet
  | S _ => None
  end.

Definition clock (i : nat) : Z := 1700000000000000 + Z.of_nat i.

Definition farm_a : Farm :=
  {| farm_id := 1; farm_name := "Farm A";
     latitude := S754_finite false 5 1; longitude := S754_finite false 5 2 |}.

Definition farm_b : Farm :=
  {| farm_id := 2; farm_name := "Farm B";
     latitude := S754_finite false 3 0; longitude := S754_zero false |}.

Definition one_farm : world :=
  {| farms := [farm_a]; alerts := []; requests := [] |}.

Definition two_farms : world :=
  {| farms := [farm_a; farm_b]; alerts := []; requests := [] |}.

(** ** The farm endpoints *)

(** The key SQLite assigns to a new farm row. *)
Definition next_farm_id (rows : list Farm) : Z :=
  1 + foldr Z.max 0 (farm_id <$> rows).

(** [create_farm]: the body has been parsed into a name and two floats by
    the framework; the row is added, committed and read back.  Failures of
    the storage engine itself are not modelled. *)
Definition create_farm (name : string) (lat lon : spec_float) (w : world)
  : Farm * world :=
  let farm := {| farm_id := next_farm_id (farms w); farm_name := name;
                 latitude := lat; longitude := lon |} in
  (farm, {| farms := farms w ++ [farm];
            alerts := alerts w;
            requests := requests w |}).


(** More sample inputs. *)
Definition reading_hot_dry : gmap string pyval :=
  mk_weather (PFloat (S754_finite false 61 (-1))) (PInt 30) PNone.

Definition reading_text_rain : gmap string pyval :=
  mk_weather (PInt 25) (PInt 90) (PStr "heavy").

Definition reading_no_rain : gmap string pyval :=
  {[ "temperature" := PInt 25; "humidity" := PInt 90 ]}.

(** ** Reachable states *)

(** The states the service reaches from empty tables through its two
    writing endpoints, whatever the provider and the clock answer. *)
Inductive reachable : world → Prop :=
| reachable_empty :
    reachable {| farms := []; alerts := []; requests := [] |}
| reachable_create_farm (w : world) (name : string) (lat lon : spec_float) :
    reachable w → reachable (create_farm name lat lon w).2
| reachable_run_checks (w : world)
    (http_get : nat → spec_float → spec_float → option pyval) (utcnow : nat → Z)
    (token : option string) :
    reachable w → reachable (run_checks http_get utcnow token w).2.

(** Every alert refers to a stored farm. *)
Definition alerts_reference_farms (w : world) : Prop :=
  ∀ a, a ∈ alerts w → ∃ g, g ∈ farms w ∧ alert_farm_id a = farm_id g.

Section provenance.

Variable http_get : nat → spec_float → spec_float → option pyval.
Variable utcnow : nat → Z.

(** Where an alert of a sweep of [fs] from position [i] comes from: a farm
    at some position [n] whose reading matched at least one rule. *)
Definition alert_from (fs : list Farm) (i : nat) (a : Alert) : Prop :=
  ∃ n g weather pests,
    fs !! n = Some g ∧
    get_weather http_get (i + n) (latitude g) (longitude g) = Ok weather ∧
    evaluate_rules weather = Ok pests ∧ pests ≠ [] ∧
    alert_farm_id a = farm_id g ∧
    message a = compose_message g pests ∧
    timestamp a = utcnow (i + n).

End provenance.

(** A provider whose readings match no rule, and one that sends text. *)
Definition payload_mild : pyval :=
  PDict {[ "main" := PDict {[ "temp" := PInt 15; "humidity" := PInt 50 ]} ]}.

Definition provider_mild (i : nat) (lat lon : spec_float) : option pyval :=
  Some payload_mild.

Definition stored_alert : Alert :=
  {| alert_id := 7; alert_farm_id := 1; message := "earlier"; timestamp := 5 |}.

Definition two_farms_one_alert : world :=
  {| farms := [farm_a; farm_b]; alerts := [stored_alert]; requests := [] |}.

(** What an alert says, apart from its key. *)
Definition alert_content (a : Alert) : Z * string * Z :=
  (alert_farm_id a, message a, timestamp a).

Definition no_tables : world := {| farms := []; alerts := []; requests := [] |}.

Definition three_alerts : world :=
  {| farms := [farm_a];
     alerts := [ {| alert_id := 1; alert_farm_id := 1; message := "first"; timestamp := 10 |};
                 {| alert_id := 2; alert_farm_id := 1; message := "second"; timestamp := 30 |};
                 {| alert_id := 3; alert_farm_id := 1; message := "third"; timestamp := 20 |} ];
     requests := [] |}.

(** * Properties of the comparisons *)

Section comparisons.

(** Every value either cannot be ordered against an integer, is unordered
    (NaN), is an infinity, or is a rational [n / d] with [0 < d]. *)
Lemma cmp_int_cases (v : pyval) :
  (∀ c, cmp_int v c = Raise TypeError) ∨
  (∀ c, cmp_int v c = Ok None) ∨
  (∀ c, cmp_int v c = Ok (Some Gt)) ∨
  (∀ c, cmp_int v c = Ok (Some Lt)) ∨
  (∃ n d, 0 < d ∧ ∀ c, cmp_int v c = Ok (Some (n ?= c * d))).
Proof.
  destruct v as [ | b | z | f | s | l | d ]; simpl; auto.
  - do 4 right. exists (Z.b2z b), 1. split; [lia|]. intros c. by rewrite Z.mul_1_r.
  - do 4 right. exists z, 1. split; [lia|]. intros c. by rewrite Z.mul_1_r.
  - destruct f as [ sg | [|] | | sg m e ]; simpl; auto.
    + do 4 right. exists 0, 1. split; [lia|]. intros c. by rewrite Z.mul_1_r.
    + do 4 right. destruct (0 <=? e) eqn:He.
      * exists ((if sg then Z.neg m else Z.pos m) * 2 ^ e), 1.
        split; [lia|]. intros c. by rewrite Z.mul_1_r.
      * exists (if sg then Z.neg m else Z.pos m), (2 ^ (- e)).
        split; [apply Z.pow_pos_nonneg; lia | done].
Qed.

Lemma cmp_int_number (v : pyval) (c : Z) :
  is_number v → ∃ o, cmp_int v c = Ok o.
Proof. destruct v; simpl; try done; eauto. Qed.

Lemma cmp_int_is_number (v : pyval) (c : Z) (o : option comparison) :
  cmp_int v c = Ok o → is_number v.
Proof. destruct v; simpl; try done. Qed.

(** A value above [a] is above every smaller literal. *)
Lemma cmp_int_gt_mono (v : pyval) (a b : Z) :
  cmp_int v a = Ok (Some Gt) → b ≤ a → cmp_int v b = Ok (Some Gt).
Proof.
  intros Ha Hle.
  destruct (cmp_int_cases v) as [H|[H|[H|[H|(n & d & Hd & H)]]]];
    rewrite H in Ha |- *; try done.
  f_equal. f_equal. injection Ha as Ha.
  apply Z.compare_gt_iff in Ha. apply Z.compare_gt_iff.
  assert (b * d ≤ a * d) by (apply Z.mul_le_mono_nonneg_r; lia). lia.
Qed.

(** A value below [a] is below every larger literal. *)
Lemma cmp_int_lt_mono (v : pyval) (a b : Z) :
  cmp_int v a = Ok (Some Lt) → a ≤ b → cmp_int v b = Ok (Some Lt).
Proof.
  intros Ha Hle.
  destruct (cmp_int_cases v) as [H|[H|[H|[H|(n & d & Hd & H)]]]];
    rewrite H in Ha |- *; try done.
  f_equal. f_equal. injection Ha as Ha.
  rewrite Z.compare_lt_iff in Ha. apply Z.compare_lt_iff.
  assert (a * d ≤ b * d) by (apply Z.mul_le_mono_nonneg_r; lia). lia.
Qed.

(** A value equal to [a] compares with [b] as [a] does. *)
Lemma cmp_int_eq (v : pyval) (a b : Z) :
  cmp_int v a = Ok (Some Eq) → cmp_int v b = Ok (Some (a ?= b)).
Proof.
  intros Ha.
  destruct (cmp_int_cases v) as [H|[H|[H|[H|(n & d & Hd & H)]]]];
    rewrite H in Ha |- *; try done.
  f_equal. f_equal. injection Ha as Ha. apply Z.compare_eq_iff in Ha. subst n.
  destruct (Z.compare_spec a b) as [->| |].
  - apply Z.compare_refl.
  - apply Z.compare_lt_iff. by apply Z.mul_lt_mono_pos_r.
  - apply Z.compare_gt_iff. by apply Z.mul_lt_mono_pos_r.
Qed.

(** Nothing is both above [a] and below [b] unless [a < b]. *)
Lemma cmp_int_gt_lt (v : pyval) (a b : Z) :
  cmp_int v a = Ok (Some Gt) → cmp_int v b = Ok (Some Lt) → a < b.
Proof.
  intros Ha Hb. destruct (Z.lt_ge_cases a b) as [|Hle]; [done|].
  rewrite (cmp_int_gt_mono v a b Ha Hle) in Hb. done.
Qed.

Lemma py_gt_true (v : pyval) (c : Z) :
  py_gt v c = Ok true ↔ cmp_int v c = Ok (Some Gt).
Proof.
  unfold py_gt. destruct (cmp_int v c) as [[[| |]|]|]; simpl; split; congruence.
Qed.

Lemma py_lt_true (v : pyval) (c : Z) :
  py_lt v c = Ok true ↔ cmp_int v c = Ok (Some Lt).
Proof.
  unfold py_lt. destruct (cmp_int v c) as [[[| |]|]|]; simpl; split; congruence.
Qed.

Lemma py_le_true (v : pyval) (c : Z) :
  py_le v c = Ok true ↔ cmp_int v c = Ok (Some Lt) ∨ cmp_int v c = Ok (Some Eq).
Proof.
  unfold py_le. destruct (cmp_int v c) as [[[| |]|]|]; simpl;
    split; try congruence; intuition congruence.
Qed.

Lemma py_gt_number (v : pyval) (c : Z) : is_number v → ∃ b, py_gt v c = Ok b.
Proof. intros [o Ho]%(cmp_int_number v c). unfold py_gt. rewrite Ho. simpl. eauto. Qed.

Lemma py_lt_number (v : pyval) (c : Z) : is_number v → ∃ b, py_lt v c = Ok b.
Proof. intros [o Ho]%(cmp_int_number v c). unfold py_lt. rewrite Ho. simpl. eauto. Qed.

Lemma py_le_number (v : pyval) (c : Z) : is_number v → ∃ b, py_le v c = Ok b.
Proof. intros [o Ho]%(cmp_int_number v c). unfold py_le. rewrite Ho. simpl. eauto. Qed.

Lemma py_ge_number (v : pyval) (c : Z) : is_number v → ∃ b, py_ge v c = Ok b.
Proof. intros [o Ho]%(cmp_int_number v c). unfold py_ge. rewrite Ho. simpl. eauto. Qed.

Lemma py_gt_is_number (v : pyval) (c : Z) (b : bool) : py_gt v c = Ok b → is_number v.
Proof. unfold py_gt. destruct (cmp_int v c) eqn:E; [|done]. intros _. by eapply cmp_int_is_number. Qed.

Lemma py_gt_mono (v : pyval) (a b : Z) :
  py_gt v a = Ok true → b ≤ a → py_gt v b = Ok true.
Proof. rewrite !py_gt_true. apply cmp_int_gt_mono. Qed.

(** [v <= a] and [a < b] give [v > b] false. *)
Lemma py_le_not_gt (v : pyval) (a b : Z) :
  py_le v a = Ok true → a < b → py_gt v b = Ok false.
Proof.
  rewrite py_le_true. intros [H|H] Hab; unfold py_gt.
  - rewrite (cmp_int_lt_mono v a b H); [done|lia].
  - rewrite (cmp_int_eq v a b H). apply Z.compare_lt_iff in Hab. by rewrite Hab.
Qed.

(** [v > a] and [b <= a] give [v < b] false. *)
Lemma py_gt_not_lt (v : pyval) (a b : Z) :
  py_gt v a = Ok true → b ≤ a → py_lt v b = Ok false.
Proof.
  rewrite py_gt_true. intros H Hab. unfold py_lt.
  by rewrite (cmp_int_gt_mono v a b H Hab).
Qed.

(** A value above a non-negative literal is true. *)
Lemma py_gt_truthy (v : pyval) (c : Z) :
  py_gt v c = Ok true → 0 ≤ c → truthy v = true.
Proof.
  rewrite py_gt_true. intros H Hc.
  destruct v as [ | b | z | f | s | l | d ]; simpl in *; try done.
  - destruct b; [done|]. destruct c; simpl in H; try done; lia.
  - injection H as H. apply Z.compare_gt_iff in H.
    apply negb_true_iff, Z.eqb_neq. lia.
  - destruct f; try done. destruct c; simpl in H; try done; lia.
Qed.

Lemma and_then_true (a b : res bool) :
  a &&& b = Ok true ↔ a = Ok true ∧ b = Ok true.
Proof.
  unfold and_then. destruct a as [[|]|]; split; try done; intuition congruence.
Qed.

End comparisons.

(** * The rule evaluator *)

Section evaluator.

Implicit Types w : gmap string pyval.

Lemma is_number_not_none (v : pyval) : is_number v → is_none v = false.
Proof. by destruct v. Qed.

Lemma is_none_true (v : pyval) : is_none v = true → v = PNone.
Proof. by destruct v. Qed.

Lemma number_or_none_cases (v : pyval) :
  number_or_none v → is_number v ∨ v = PNone.
Proof. destruct v; simpl; auto. Qed.

(** The rain the rules see is the reading's rain whenever that is above a
    non-negative literal. *)
Lemma rain_seen w (c : Z) :
  py_gt (rain_mm w) c = Ok true → 0 ≤ c → py_or (rain_mm w) (PInt 0) = rain_mm w.
Proof. intros H Hc. unfold py_or. by rewrite (py_gt_truthy _ _ H Hc). Qed.

(** [rain or 0] of a number, or of nothing, is a number. *)
Lemma py_or_number (v : pyval) :
  number_or_none v → is_number (py_or v (PInt 0)).
Proof. unfold py_or. destruct v as [ | [|] | | [] | | | ]; simpl; try done; by case_match. Qed.

(** When both fields are there, the three rules are evaluated in order. *)
Lemma evaluate_rules_present w :
  is_none (humidity w) = false → is_none (temperature w) = false →
  evaluate_rules w =
    (c1 ← py_gt (humidity w) 80 &&& (py_ge (temperature w) 20 &&& py_le (temperature w) 28);
     c2 ← py_gt (temperature w) 30 &&& py_lt (humidity w) 40;
     c3 ← py_gt (humidity w) 85 &&& py_gt (py_or (rain_mm w) (PInt 0)) 5;
     Ok (append_if c3 (append_if c2 (append_if c1 [] POWDERY) APHIDS) GRAY_MOLD)).
Proof.
  unfold evaluate_rules, humidity, temperature, rain_mm. by intros -> ->.
Qed.

Lemma evaluate_rules_none w :
  temperature w = PNone ∨ humidity w = PNone → evaluate_rules w = Ok [].
Proof.
  unfold evaluate_rules, humidity, temperature.
  intros [-> | ->]; simpl; [by rewrite andb_false_r | done].
Qed.

(** On a reading no comparison raises. *)
Lemma evaluate_rules_total w : reading w → ∃ l, evaluate_rules w = Ok l.
Proof.
  intros (Ht%number_or_none_cases & Hh%number_or_none_cases & Hr%py_or_number).
  destruct Ht as [Ht|Ht]; [|rewrite evaluate_rules_none; eauto].
  destruct Hh as [Hh|Hh]; [|rewrite evaluate_rules_none; eauto].
  rewrite evaluate_rules_present by by apply is_number_not_none.
  destruct (py_gt_number _ 80 Hh) as [a1 ->], (py_ge_number _ 20 Ht) as [a2 ->],
    (py_le_number _ 28 Ht) as [a3 ->], (py_gt_number _ 30 Ht) as [a4 ->],
    (py_lt_number _ 40 Hh) as [a5 ->], (py_gt_number _ 85 Hh) as [a6 ->],
    (py_gt_number _ 5 Hr) as [a7 ->].
  destruct a1, a2, a3, a4, a5, a6, a7; simpl; eauto.
Qed.

(** The rules at their thresholds, and on values that are not numbers. *)
Example evaluate_hot_dry :
  evaluate_rules (mk_weather (PInt 35) (PInt 30) (PInt 0)) = Ok [APHIDS].
Proof. by vm_compute. Qed.

Example evaluate_upper_bounds :
  evaluate_rules (mk_weather (PInt 28) (PInt 81) (PInt 5)) = Ok [POWDERY].
Proof. by vm_compute. Qed.

Example evaluate_at_thresholds :
  evaluate_rules (mk_weather (PInt 30) (PInt 80) (PInt 6)) = Ok [].
Proof. by vm_compute. Qed.

Example evaluate_nan_temperature :
  evaluate_rules (mk_weather (PFloat S754_nan) (PInt 90) (PInt 10)) = Ok [GRAY_MOLD].
Proof. by vm_compute. Qed.

Example evaluate_text_temperature :
  evaluate_rules (mk_weather (PStr "hot") (PInt 90) (PInt 10)) = Raise TypeError.
Proof. by vm_compute. Qed.

(** C1 (as stated) fails: a reading with humidity 90 and rain 10 but no
    temperature satisfies the hypotheses of the claim, and the evaluator
    returns the empty list for it. *)
Lemma gray_mold_without_temperature :
  reading reading_without_temperature ∧
  py_gt (humidity reading_without_temperature) 85 = Ok true ∧
  py_gt (rain_mm reading_without_temperature) 5 = Ok true ∧
  temperature reading_without_temperature = PNone ∧
  evaluate_rules reading_without_temperature = Ok [] ∧
  GRAY_MOLD ∉ @nil string.
Proof. repeat split; try by vm_compute. apply not_elem_of_nil. Qed.

(** C1 (amended): for every weather reading with temperature present,
    humidity present, humidity > 85 and rain > 5, the output of
    [evaluate_rules] contains "Gray mold / Botrytis (possible)". *)
Theorem gray_mold_with_temperature w :
  is_number (temperature w) →
  py_gt (humidity w) 85 = Ok true →
  py_gt (rain_mm w) 5 = Ok true →
  ∃ l, evaluate_rules w = Ok l ∧ GRAY_MOLD ∈ l.
Proof.
  intros Ht Hh Hr.
  pose proof (py_gt_is_number _ _ _ Hh) as Hn.
  rewrite evaluate_rules_present by by apply is_number_not_none.
  rewrite (rain_seen w 5 Hr) by lia. rewrite Hh, Hr.
  rewrite (py_gt_mono _ 85 80 Hh) by lia.
  rewrite (py_gt_not_lt _ 85 40 Hh) by lia.
  destruct (py_ge_number _ 20 Ht) as [a2 ->], (py_le_number _ 28 Ht) as [a3 ->],
    (py_gt_number _ 30 Ht) as [a4 ->].
  destruct a2, a3, a4; simpl; eexists; (split; [done|]); set_solver.
Qed.

Lemma gray_mold_with_temperature_witness :
  ∃ l, evaluate_rules reading_warm_wet = Ok l ∧ GRAY_MOLD ∈ l.
Proof.
  apply (gray_mold_with_temperature reading_warm_wet); by vm_compute.
Defined.

(** C3: for every weather reading with temperature and humidity present,
    humidity > 80 and 20 <= temperature <= 28, the output of
    [evaluate_rules] contains "Powdery mildew (possible)" exactly once. *)
Theorem powdery_mildew_once w :
  reading w →
  py_gt (humidity w) 80 = Ok true →
  py_ge (temperature w) 20 = Ok true →
  py_le (temperature w) 28 = Ok true →
  ∃ l, evaluate_rules w = Ok l ∧ count_occ string_dec l POWDERY = 1%nat.
Proof.
  intros (_ & _ & Hr%py_or_number) Hh Hge Hle.
  pose proof (py_gt_is_number _ _ _ Hh) as Hn.
  assert (is_number (temperature w)) as Ht.
  { unfold py_le in Hle. destruct (cmp_int (temperature w) 28) eqn:E; [|done].
    by eapply cmp_int_is_number. }
  rewrite evaluate_rules_present by by apply is_number_not_none.
  rewrite Hh, Hge, Hle. rewrite (py_le_not_gt _ 28 30 Hle) by lia.
  destruct (py_gt_number _ 85 Hn) as [a6 ->], (py_gt_number _ 5 Hr) as [a7 ->].
  destruct a6, a7; simpl; eexists; (split; [done|]); reflexivity.
Qed.

Lemma powdery_mildew_once_witness :
  ∃ l, evaluate_rules reading_warm_wet = Ok l ∧ count_occ string_dec l POWDERY = 1%nat.
Proof.
  apply (powdery_mildew_once reading_warm_wet); by vm_compute.
Defined.

(** C4: for every weather dictionary in which temperature is absent or
    humidity is absent, [evaluate_rules] returns the empty list, whatever
    the rain entry holds. *)
Theorem absent_field_no_rule w :
  temperature w = PNone ∨ humidity w = PNone →
  evaluate_rules w = Ok [] ∧ ∀ r, evaluate_rules (<["rain_mm" := r]> w) = Ok [].
Proof.
  intros H. split; [by apply evaluate_rules_none|].
  intros r. apply evaluate_rules_none.
  unfold temperature, humidity, dict_get in *. by rewrite !lookup_insert_ne.
Qed.

Lemma absent_field_no_rule_witness :
  evaluate_rules reading_without_humidity = Ok [] ∧
  ∀ r, evaluate_rules (<["rain_mm" := r]> reading_without_humidity) = Ok [].
Proof.
  apply (absent_field_no_rule reading_without_humidity). right. by vm_compute.
Defined.

(** C10: the output of [evaluate_rules] never contains both
    "Powdery mildew (possible)" and "Aphids (possible)", and so it has at
    most two labels. *)
Theorem powdery_aphids_exclusive w l :
  evaluate_rules w = Ok l →
  ¬ (POWDERY ∈ l ∧ APHIDS ∈ l) ∧ (length l ≤ 2)%nat.
Proof.
  destruct (is_none (humidity w)) eqn:Hh.
  { rewrite evaluate_rules_none by (right; by apply is_none_true).
    intros [= <-]. split; [compute_done | simpl; lia]. }
  destruct (is_none (temperature w)) eqn:Ht.
  { rewrite evaluate_rules_none by (left; by apply is_none_true).
    intros [= <-]. split; [compute_done | simpl; lia]. }
  rewrite evaluate_rules_present by done.
  destruct (py_gt (humidity w) 80 &&& _) as [c1|] eqn:E1; [|done].
  destruct (py_gt (temperature w) 30 &&& _) as [c2|] eqn:E2; [|done].
  destruct (py_gt (humidity w) 85 &&& _) as [c3|] eqn:E3; [|done].
  simpl. intros [= <-].
  destruct c1, c2.
  - apply and_then_true in E1 as [E1 _]. apply and_then_true in E2 as [_ E2].
    apply py_gt_true in E1. apply py_lt_true in E2.
    pose proof (cmp_int_gt_lt _ _ _ E1 E2). lia.
  - destruct c3; simpl; (split; [compute_done | lia]).
  - destruct c3; simpl; (split; [compute_done | lia]).
  - destruct c3; simpl; (split; [compute_done | lia]).
Qed.

Lemma powdery_aphids_exclusive_witness :
  ¬ (POWDERY ∈ [POWDERY; GRAY_MOLD] ∧ APHIDS ∈ [POWDERY; GRAY_MOLD]) ∧
  (length [POWDERY; GRAY_MOLD] ≤ 2)%nat.
Proof.
  apply (powdery_aphids_exclusive reading_warm_wet). by vm_compute.
Defined.

End evaluator.

(** * The alert listing *)

Section listing.

#[local] Instance newer_first_trans : Transitive newer_first.
Proof. unfold newer_first. intros a b c. lia. Qed.

#[local] Instance newer_first_total : Total newer_first.
Proof. unfold newer_first. intros a b. lia. Qed.

Lemma StronglySorted_take {A} (R : relation A) (n : nat) (l : list A) :
  StronglySorted R l → StronglySorted R (take n l).
Proof.
  intros H. rewrite <- (take_drop n l) in H. by apply StronglySorted_app_1_l in H.
Qed.

(** C8: for every state of the alert table, the listing returns at most 100
    rows, newest timestamp first; the rows are rows of the table, and 100
    of them are returned whenever the table has that many. *)
Theorem list_alerts_newest_first (w : world) :
  (length (list_alerts w) ≤ 100)%nat ∧
  StronglySorted (λ a b, timestamp b ≤ timestamp a) (list_alerts w) ∧
  list_alerts w ⊆ alerts w ∧
  length (list_alerts w) = (100 `min` length (alerts w))%nat.
Proof.
  unfold list_alerts.
  assert (length (take 100 (merge_sort newer_first (alerts w)))
          = (100 `min` length (alerts w))%nat) as Hlen.
  { rewrite length_take. by rewrite (merge_sort_Permutation newer_first (alerts w)). }
  split; [lia|]. split; [|split; [|done]].
  - apply StronglySorted_take.
    exact (StronglySorted_merge_sort newer_first (alerts w)).
  - etrans; [apply subseteq_take|].
    intros a. by rewrite (merge_sort_Permutation newer_first (alerts w)).
Qed.

End listing.

(** * The weather client *)

Section client.

Variable http_get : nat → spec_float → spec_float → option pyval.

(** The client returns exactly when the body is an object whose ["main"]
    entry is missing or an object. *)
Lemma normalize_raises (data : pyval) (e : exn) :
  normalize data = Raise e →
  e = AttributeError ∧
  ((∀ d, data ≠ PDict d) ∨
   ∃ d x, data = PDict d ∧ d !! "main" = Some x ∧ ∀ m, x ≠ PDict m).
Proof.
  unfold normalize.
  destruct data as [ | | | | | | d]; simpl; try (intros [= <-]; naive_solver).
  unfold dict_get_or. destruct (d !! "main") as [x|] eqn:Hm; simpl; [|done].
  destruct x; simpl; try done; intros [= <-]; (split; [done|]); right;
    eexists _, _; naive_solver.
Qed.

(** C9: for every provider body that is an object whose ["main"] entry is
    missing or an object, the client returns a reading; its rain is
    [body["rain"]["1h"]] when ["rain"] is an object with key ["1h"], and 0
    when ["rain"] is missing, is not an object or has no key ["1h"]; its
    temperature and humidity are the ["temp"] and ["humidity"] entries of
    ["main"], and [None] when ["main"] or those keys are missing. *)
Theorem get_weather_fields (i : nat) (lat lon : spec_float) (d : gmap string pyval) :
  http_get i lat lon = Some (PDict d) →
  (d !! "main" = None ∨ ∃ m, d !! "main" = Some (PDict m)) →
  ∃ w, get_weather http_get i lat lon = Ok w ∧
    (∀ r v, d !! "rain" = Some (PDict r) → r !! "1h" = Some v →
            w !! "rain_mm" = Some v) ∧
    (d !! "rain" = None → w !! "rain_mm" = Some (PInt 0)) ∧
    (∀ x, d !! "rain" = Some x → (∀ r, x ≠ PDict r) → w !! "rain_mm" = Some (PInt 0)) ∧
    (∀ r, d !! "rain" = Some (PDict r) → r !! "1h" = None →
          w !! "rain_mm" = Some (PInt 0)) ∧
    (∀ m, d !! "main" = Some (PDict m) →
          w !! "temperature" = Some (default PNone (m !! "temp")) ∧
          w !! "humidity" = Some (default PNone (m !! "humidity"))) ∧
    (d !! "main" = None →
          w !! "temperature" = Some PNone ∧ w !! "humidity" = Some PNone) ∧
    w !! "raw" = Some (PDict d).
Proof.
  intros Hget Hmain. unfold get_weather. rewrite Hget.
  unfold normalize, dict_get_or, dict_get. simpl.
  destruct Hmain as [Hm | [m Hm]]; rewrite Hm; simpl; eexists; (split; [done|]);
    repeat split; intros; simplify_map_eq; try done.
  all: destruct (d !! "rain") as [[]|]; simplify_map_eq; try done; naive_solver.
Qed.

End client.

(** * The check sweep *)

Section orchestrator.

Variable http_get : nat → spec_float → spec_float → option pyval.
Variable utcnow : nat → Z.

#[local] Abbreviation get_weather := (get_weather http_get).
#[local] Abbreviation check_farm := (check_farm http_get utcnow).
#[local] Abbreviation sweep := (sweep http_get utcnow).
#[local] Abbreviation run_checks := (run_checks http_get utcnow).
#[local] Abbreviation fetch_succeeds := (fetch_succeeds http_get).

Lemma loop_error_status {A} (e : exn) :
  loop_error e → status_code (Raise e : res A) = 500.
Proof. by intros [-> | [-> | ->]]. Qed.

Lemma get_weather_error (i : nat) (lat lon : spec_float) (e : exn) :
  get_weather i lat lon = Raise e → loop_error e.
Proof.
  unfold get_weather. destruct (http_get i lat lon) as [data|].
  - intros [-> _]%normalize_raises. right. by left.
  - intros [= <-]. right. by right.
Qed.

Lemma and_then_error (a b : res bool) (e : exn) :
  (∀ e', a = Raise e' → e' = TypeError) → (∀ e', b = Raise e' → e' = TypeError) →
  a &&& b = Raise e → e = TypeError.
Proof. unfold and_then. destruct a as [[|]|]; naive_solver. Qed.

Lemma cmp_int_error (v : pyval) (c : Z) (e : exn) :
  cmp_int v c = Raise e → e = TypeError.
Proof. destruct v; simpl; congruence. Qed.

Lemma evaluate_rules_error (weather : gmap string pyval) (e : exn) :
  evaluate_rules weather = Raise e → loop_error e.
Proof.
  assert (∀ v c e', py_gt v c = Raise e' → e' = TypeError) as Hgt.
  { intros v c e'. unfold py_gt. destruct (cmp_int v c) eqn:E; [done|].
    simpl. intros [= <-]. by eapply cmp_int_error. }
  assert (∀ v c e', py_lt v c = Raise e' → e' = TypeError) as Hlt.
  { intros v c e'. unfold py_lt. destruct (cmp_int v c) eqn:E; [done|].
    simpl. intros [= <-]. by eapply cmp_int_error. }
  assert (∀ v c e', py_le v c = Raise e' → e' = TypeError) as Hle.
  { intros v c e'. unfold py_le. destruct (cmp_int v c) eqn:E; [done|].
    simpl. intros [= <-]. by eapply cmp_int_error. }
  assert (∀ v c e', py_ge v c = Raise e' → e' = TypeError) as Hge.
  { intros v c e'. unfold py_ge. destruct (cmp_int v c) eqn:E; [done|].
    simpl. intros [= <-]. by eapply cmp_int_error. }
  intros H. left. revert H.
  destruct (is_none (humidity weather)) eqn:Hh.
  { by rewrite evaluate_rules_none by (right; by apply is_none_true). }
  destruct (is_none (temperature weather)) eqn:Ht.
  { by rewrite evaluate_rules_none by (left; by apply is_none_true). }
  rewrite evaluate_rules_present by done.
  destruct (py_gt (humidity weather) 80 &&& _) as [c1|e1] eqn:E1; simpl.
  2:{ intros [= <-]. revert E1. apply and_then_error; [by eauto|].
      intros e'. apply and_then_error; eauto. }
  destruct (py_gt (temperature weather) 30 &&& _) as [c2|e2] eqn:E2; simpl.
  2:{ intros [= <-]. revert E2. apply and_then_error; eauto. }
  destruct (py_gt (humidity weather) 85 &&& _) as [c3|e3] eqn:E3; simpl; [done|].
  intros [= <-]. revert E3. apply and_then_error; eauto.
Qed.

(** ** One farm *)

Lemma check_farm_raises (i : nat) (g : Farm) (w w' : world) (e : exn) :
  check_farm i g w = (Raise e, w') → w' = log_request g w ∧ loop_error e.
Proof.
  unfold check_farm.
  destruct (get_weather i _ _) as [weather|e0] eqn:Hg.
  - destruct (evaluate_rules weather) as [[|p ps]|e1] eqn:He; try done.
    intros [= <- <-]. split; [done|]. by eapply evaluate_rules_error.
  - intros [= <- <-]. split; [done|]. by eapply get_weather_error.
Qed.

Lemma check_farm_fetch_fails (i : nat) (g : Farm) (w : world) (e : exn) :
  get_weather i (latitude g) (longitude g) = Raise e →
  check_farm i g w = (Raise e, log_request g w).
Proof. unfold check_farm. by intros ->. Qed.

Lemma check_farm_ok (i : nat) (g : Farm) (w w' : world) :
  check_farm i g w = (Ok (), w') →
  ∃ weather pests,
    get_weather i (latitude g) (longitude g) = Ok weather ∧
    evaluate_rules weather = Ok pests ∧
    farms w' = farms w ∧
    requests w' = requests w ++ [coords g] ∧
    alerts w' = alerts w ++
      match pests with [] => [] | _ => [alert_for utcnow i g pests (alerts w)] end.
Proof.
  unfold check_farm.
  destruct (get_weather i _ _) as [weather|e0] eqn:Hg; [|done].
  destruct (evaluate_rules weather) as [[|p ps]|e1] eqn:He; [| |done].
  - intros [= <-]. exists weather, []. simpl. by rewrite app_nil_r.
  - intros [= <-]. by exists weather, (p :: ps).
Qed.

Lemma check_farm_completes (i : nat) (g : Farm) (w : world) :
  fetch_succeeds i g → ∃ w', check_farm i g w = (Ok (), w').
Proof.
  intros (weather & Hg & [pests He]%evaluate_rules_total).
  unfold check_farm. rewrite Hg, He. destruct pests; eauto.
Qed.

(** ** The loop *)

(** A sweep that ends normally has sent one request per farm and has only
    appended alerts, each for one of its farms. *)
Lemma sweep_ok_frame (fs : list Farm) (i : nat) (w w' : world) :
  sweep i fs w = (Ok (), w') →
  farms w' = farms w ∧
  requests w' = requests w ++ (coords <$> fs) ∧
  ∃ new, alerts w' = alerts w ++ new ∧
         ∀ a, a ∈ new → ∃ j g, fs !! j = Some g ∧ alert_farm_id a = farm_id g.
Proof.
  revert i w. induction fs as [|g fs IH]; intros i w; simpl.
  - intros [= <-]. rewrite app_nil_r. split; [done|]. split; [done|].
    exists []. rewrite app_nil_r. split; [done|]. by intros a ?%elem_of_nil.
  - destruct (check_farm i g w) as [[[]|e] w1] eqn:Hc; [|done].
    apply check_farm_ok in Hc as (weather & pests & _ & _ & Hf & Hr & Ha).
    intros (Hf' & Hr' & new & Ha' & Hnew)%IH.
    split; [congruence|]. split; [by rewrite Hr', Hr, <- app_assoc|].
    eexists. split; [by rewrite Ha', Ha, <- app_assoc|].
    intros a [Hin|Hin]%elem_of_app.
    + exists 0%nat, g. split; [done|].
      destruct pests; [by apply elem_of_nil in Hin|].
      by apply list_elem_of_singleton in Hin as ->.
    + destruct (Hnew a Hin) as (j & g' & ? & ?). by exists (S j), g'.
Qed.

(** A sweep all of whose fetches succeed ends normally. *)
Lemma sweep_completes (fs : list Farm) (i : nat) (w : world) :
  (∀ j g, fs !! j = Some g → fetch_succeeds (i + j) g) →
  ∃ w', sweep i fs w = (Ok (), w').
Proof.
  revert i w. induction fs as [|g fs IH]; intros i w Hall; simpl; [eauto|].
  destruct (check_farm_completes i g w) as [w1 ->].
  { specialize (Hall 0%nat g eq_refl). by rewrite Nat.add_0_r in Hall. }
  apply IH. intros j g' Hj. specialize (Hall (S j) g' Hj).
  by rewrite Nat.add_succ_r in Hall.
Qed.

(** The sweep stops at the first farm whose check raises: when the fetch
    for the farm at position [k] fails, the sweep has ended at some position
    [j <= k], after a normal sweep of the [j] farms before it and one more
    request. *)
Lemma sweep_aborts (fs : list Farm) (i k : nat) (w : world) (f : Farm) (e : exn) :
  fs !! k = Some f →
  get_weather (i + k) (latitude f) (longitude f) = Raise e →
  ∃ j g e' w1,
    (j ≤ k)%nat ∧ fs !! j = Some g ∧ loop_error e' ∧
    sweep i (take j fs) w = (Ok (), w1) ∧
    sweep i fs w = (Raise e', log_request g w1) ∧
    ((∀ n h, (n < k)%nat → fs !! n = Some h → fetch_succeeds (i + n) h) →
     j = k ∧ e' = e).
Proof.
  revert i k w. induction fs as [|g fs IH]; intros i k w Hk Hget; [done|].
  simpl. destruct (check_farm i g w) as [[[]|e0] w0] eqn:Hc.
  - destruct k as [|k]; simpl in Hk.
    { injection Hk as ->. rewrite Nat.add_0_r in Hget.
      by rewrite (check_farm_fetch_fails _ _ _ _ Hget) in Hc. }
    rewrite Nat.add_succ_r in Hget.
    destruct (IH (S i) k w0 Hk Hget)
      as (j & g' & e' & w1 & Hj & Hg' & He' & Hpre & Hrun & Hfirst).
    exists (S j), g', e', w1. simpl. rewrite Hc.
    split; [lia|]. do 4 (split; [done|]).
    intros Hall. destruct Hfirst as [-> ->]; [|done].
    intros n h Hn Hh. specialize (Hall (S n) h).
    rewrite Nat.add_succ_r in Hall. apply Hall; [lia|done].
  - pose proof (check_farm_raises _ _ _ _ _ Hc) as [-> He0].
    exists 0%nat, g, e0, w. simpl.
    split; [lia|]. do 4 (split; [done|]).
    intros Hall. destruct k as [|k].
    + simpl in Hk. injection Hk as ->. rewrite Nat.add_0_r in Hget.
      rewrite (check_farm_fetch_fails _ _ _ _ Hget) in Hc. split; congruence.
    + destruct (check_farm_completes i g w) as [w' Hw'].
      { specialize (Hall 0%nat g). rewrite Nat.add_0_r in Hall.
        apply Hall; [lia|done]. }
      congruence.
Qed.

Lemma sweep_app (l1 l2 : list Farm) (i : nat) (w : world) :
  sweep i (l1 ++ l2) w =
    match sweep i l1 w with
    | (Ok _, w1) => sweep (i + length l1) l2 w1
    | (Raise e, w1) => (Raise e, w1)
    end.
Proof.
  revert i w. induction l1 as [|g l1 IH]; intros i w; simpl.
  - by rewrite Nat.add_0_r.
  - destruct (check_farm i g w) as [[[]|e] w1]; [|done].
    rewrite IH. by rewrite Nat.add_succ_r.
Qed.

Lemma filter_none {A} (P : A → Prop) `{!∀ x, Decision (P x)} (l : list A) :
  (∀ x, x ∈ l → ¬ P x) → filter P l = [].
Proof.
  induction l as [|x l IH]; intros Hno; [done|].
  rewrite filter_cons_False by (apply Hno; by left).
  apply IH. intros y Hy. apply Hno. by right.
Qed.

(** The rules on a reading with temperature 25, humidity 90 and rain 10,
    whichever number type holds the three values. *)
Lemma evaluate_rules_warm_wet (weather : gmap string pyval) :
  cmp_int (temperature weather) 25 = Ok (Some Eq) →
  cmp_int (humidity weather) 90 = Ok (Some Eq) →
  cmp_int (rain_mm weather) 10 = Ok (Some Eq) →
  evaluate_rules weather = Ok [POWDERY; GRAY_MOLD].
Proof.
  intros Ht Hh Hr.
  rewrite evaluate_rules_present
    by (apply is_number_not_none; by eapply cmp_int_is_number).
  assert (py_gt (rain_mm weather) 5 = Ok true) as Hr5.
  { unfold py_gt. by rewrite (cmp_int_eq _ 10 5 Hr). }
  rewrite (rain_seen weather 5 Hr5) by lia. rewrite Hr5.
  unfold py_gt, py_lt, py_le, py_ge.
  rewrite (cmp_int_eq _ 90 80 Hh), (cmp_int_eq _ 90 85 Hh), (cmp_int_eq _ 90 40 Hh).
  rewrite (cmp_int_eq _ 25 20 Ht), (cmp_int_eq _ 25 28 Ht), (cmp_int_eq _ 25 30 Ht).
  reflexivity.
Qed.

Lemma run_checks_authorized (w : world) :
  run_checks (Some INTERNAL_TOKEN) w =
    match sweep 0 (farms w) w with
    | (Raise e, w') => (Raise e, w')
    | (Ok _, w') =>
        (Ok {[ "status" := PStr "done";
               "checked" := PInt (Z.of_nat (length (farms w))) ]}, w')
    end.
Proof.
  unfold run_checks. rewrite bool_decide_eq_false_2; [done|]. by intros H.
Qed.

(** ** The endpoint *)

(** C5: for every token other than the configured secret, [run_checks]
    fails with status 403; no request is sent to the provider and the
    tables are unchanged. *)
Theorem run_checks_forbidden (token : option string) (w : world) :
  token ≠ Some INTERNAL_TOKEN →
  run_checks token w = (Raise (HTTPException 403 "forbidden"), w) ∧
  status_code (run_checks token w).1 = 403 ∧
  alerts (run_checks token w).2 = alerts w ∧
  farms (run_checks token w).2 = farms w ∧
  requests (run_checks token w).2 = requests w.
Proof.
  intros H. unfold run_checks. by rewrite bool_decide_eq_true_2.
Qed.

(** C7: for every call with the correct token in which every farm's fetch
    succeeds, [run_checks] returns status "done" and, as "checked", the
    number of farms stored at the start of the sweep. *)
Theorem run_checks_summary (w : world) :
  (∀ i g, farms w !! i = Some g → fetch_succeeds i g) →
  ∃ w', run_checks (Some INTERNAL_TOKEN) w =
          (Ok {[ "status" := PStr "done";
                 "checked" := PInt (Z.of_nat (length (farms w))) ]}, w') ∧
        status_code (run_checks (Some INTERNAL_TOKEN) w).1 = 200 ∧
        farms w' = farms w.
Proof.
  intros Hall. rewrite run_checks_authorized.
  destruct (sweep_completes (farms w) 0 w Hall) as [w' Hw']. rewrite Hw'.
  exists w'. repeat split. by apply sweep_ok_frame in Hw' as [? _].
Qed.

(** C6: when the fetch for the farm at position [k] fails, [run_checks]
    raises, the response is a server error, and the sweep has stopped at a
    position [j <= k]: the alerts added are those a normal sweep of the [j]
    farms before it commits, each for one of these farms, and no request
    was sent past position [j].  When the fetches before [k] succeed, the
    sweep stops at [k] with the error of that fetch. *)
Theorem run_checks_fetch_failure (w : world) (k : nat) (f : Farm) (e : exn) :
  farms w !! k = Some f →
  get_weather k (latitude f) (longitude f) = Raise e →
  ∃ (j : nat) (e' : exn) (new : list Alert),
    (j ≤ k)%nat ∧
    run_checks (Some INTERNAL_TOKEN) w =
      (Raise e', {| farms := farms w;
                    alerts := alerts w ++ new;
                    requests := requests w ++ (coords <$> take (S j) (farms w)) |}) ∧
    status_code (run_checks (Some INTERNAL_TOKEN) w).1 = 500 ∧
    sweep 0 (take j (farms w)) w =
      (Ok (), {| farms := farms w;
                 alerts := alerts w ++ new;
                 requests := requests w ++ (coords <$> take j (farms w)) |}) ∧
    (∀ a, a ∈ new →
       ∃ n g, (n < j)%nat ∧ farms w !! n = Some g ∧ alert_farm_id a = farm_id g) ∧
    ((∀ n h, (n < k)%nat → farms w !! n = Some h → fetch_succeeds n h) →
     j = k ∧ e' = e).
Proof.
  intros Hk Hget.
  destruct (sweep_aborts (farms w) 0 k w f e Hk Hget)
    as (j & g & e' & w1 & Hj & Hg & He' & Hpre & Hrun & Hfirst).
  destruct (sweep_ok_frame _ _ _ _ Hpre) as (Hf1 & Hr1 & new & Ha1 & Hnew).
  exists j, e', new. rewrite run_checks_authorized, Hrun. simpl.
  split; [done|]. split.
  { unfold log_request. rewrite Hf1, Ha1, Hr1, (take_S_r _ _ _ Hg), fmap_app.
    by rewrite <- app_assoc. }
  split; [by apply (loop_error_status (A:=gmap string pyval))|]. split.
  { rewrite Hpre. destruct w1; simpl in *. by subst. }
  split; [|done].
  intros a Ha. destruct (Hnew a Ha) as (n & h & [Hh Hn]%lookup_take_Some & Hid).
  by exists n, h.
Qed.

(** C2 (amended): if the table holds a farm, the fetches of the sweep
    succeed and the one for that farm returns temperature 25, humidity 90
    and rain 10, then [run_checks] with the correct token creates exactly
    one alert for that farm; its message is the farm's name in the prefix
    "Farm '<name>' potential pests: " followed by the two matched labels,
    "Powdery mildew (possible)" and "Gray mold / Botrytis (possible)",
    joined by "; ". *)
Theorem run_checks_warm_wet (w : world) (k : nat) (f : Farm)
    (weather : gmap string pyval) :
  farms w !! k = Some f →
  NoDup (farm_id <$> farms w) →
  (∀ i g, farms w !! i = Some g → fetch_succeeds i g) →
  get_weather k (latitude f) (longitude f) = Ok weather →
  cmp_int (temperature weather) 25 = Ok (Some Eq) →
  cmp_int (humidity weather) 90 = Ok (Some Eq) →
  cmp_int (rain_mm weather) 10 = Ok (Some Eq) →
  ∃ w' new a,
    run_checks (Some INTERNAL_TOKEN) w =
      (Ok {[ "status" := PStr "done";
             "checked" := PInt (Z.of_nat (length (farms w))) ]}, w') ∧
    alerts w' = alerts w ++ new ∧
    filter (λ x, alert_farm_id x = farm_id f) new = [a] ∧
    message a =
      ("Farm '" ++ farm_name f ++
       "' potential pests: Powdery mildew (possible); Gray mold / Botrytis (possible)")%string.
Proof.
  intros Hk Hnd Hall Hget Ht Hh Hr.
  pose proof (evaluate_rules_warm_wet weather Ht Hh Hr) as Hev.
  rewrite run_checks_authorized.
  destruct (sweep_completes (farms w) 0 w Hall) as [w' Hw']. rewrite Hw'.
  rewrite <- (take_drop_middle _ _ _ Hk) in Hw', Hnd.
  rewrite sweep_app in Hw'.
  destruct (sweep 0 (take k (farms w)) w) as [[[]|e1] w1] eqn:Hpre; [|done].
  assert (length (take k (farms w)) = k) as Hlen.
  { apply length_take_le. apply lookup_lt_Some in Hk. lia. }
  rewrite Hlen in Hw'. simpl in Hw'.
  assert (check_farm k f w1 =
            (Ok (), add_alert utcnow k f (compose_message f [POWDERY; GRAY_MOLD])
                      (log_request f w1))) as Hc.
  { unfold check_farm. by rewrite Hget, Hev. }
  rewrite Hc in Hw'.
  destruct (sweep_ok_frame _ _ _ _ Hpre) as (_ & _ & new1 & Ha1 & Hnew1).
  destruct (sweep_ok_frame _ _ _ _ Hw') as (_ & _ & new3 & Ha3 & Hnew3).
  simpl in Ha3. rewrite Ha1 in Ha3.
  rewrite fmap_app, fmap_cons in Hnd.
  apply NoDup_app in Hnd as (_ & Hpre_ids & [Hpost_ids _]%NoDup_cons).
  set (a := alert_for utcnow k f [POWDERY; GRAY_MOLD] (alerts w ++ new1)).
  exists w', (new1 ++ [a] ++ new3), a.
  split; [done|]. split; [by rewrite Ha3, <- !app_assoc|]. split; [|done].
  rewrite !filter_app, filter_singleton_True by done.
  rewrite !filter_none; [done| |].
  - intros a' Ha Hid. destruct (Hnew3 a' Ha) as (n & g & Hg & Hg').
    apply Hpost_ids. rewrite <- Hid, Hg'.
    apply list_elem_of_fmap. exists g. split; [done|].
    apply list_elem_of_lookup. eauto.
  - intros a' Ha Hid. destruct (Hnew1 a' Ha) as (n & g & Hg & Hg').
    apply (Hpre_ids (farm_id f)); [|by left].
    rewrite <- Hid, Hg'. apply list_elem_of_fmap. exists g. split; [done|].
    apply list_elem_of_lookup. eauto.
Qed.

End orchestrator.

(** * Worked runs *)

Section runs.

Lemma provider_warm_wet_reading (i : nat) (lat lon : spec_float) :
  get_weather provider_warm_wet i lat lon = Ok reading_of_payload.
Proof. by vm_compute. Qed.

Lemma provider_warm_wet_succeeds (i : nat) (g : Farm) :
  fetch_succeeds provider_warm_wet i g.
Proof.
  exists reading_of_payload. split; [apply provider_warm_wet_reading | by vm_compute].
Qed.

Lemma get_weather_fields_witness :
  ∃ w, get_weather provider_warm_wet 0 (latitude farm_a) (longitude farm_a) = Ok w ∧
       w !! "rain_mm" = Some (PInt 10) ∧
       w !! "temperature" = Some (PInt 25) ∧
       w !! "humidity" = Some (PInt 90).
Proof.
  destruct (get_weather_fields provider_warm_wet 0 (latitude farm_a) (longitude farm_a)
              body_warm_wet eq_refl (or_intror (ex_intro _ main_warm_wet eq_refl)))
    as (w & Hw & Hrain & _ & _ & _ & Hmain & _).
  exists w. split; [done|]. split.
  - by apply (Hrain {[ "1h" := PInt 10 ]}).
  - by apply (Hmain main_warm_wet).
Defined.

Lemma run_checks_forbidden_witness :
  run_checks provider_warm_wet clock (Some "guess") two_farms =
    (Raise (HTTPException 403 "forbidden"), two_farms) ∧
  status_code (run_checks provider_warm_wet clock (Some "guess") two_farms).1 = 403 ∧
  alerts (run_checks provider_warm_wet clock (Some "guess") two_farms).2 = [] ∧
  farms (run_checks provider_warm_wet clock (Some "guess") two_farms).2 = [farm_a; farm_b] ∧
  requests (run_checks provider_warm_wet clock (Some "guess") two_farms).2 = [].
Proof.
  apply (run_checks_forbidden provider_warm_wet clock (Some "guess") two_farms).
  by vm_compute.
Defined.

Lemma run_checks_summary_witness :
  ∃ w', run_checks provider_warm_wet clock (Some INTERNAL_TOKEN) two_farms =
          (Ok {[ "status" := PStr "done"; "checked" := PInt 2 ]}, w') ∧
        status_code (run_checks provider_warm_wet clock (Some INTERNAL_TOKEN) two_farms).1
          = 200 ∧
        farms w' = [farm_a; farm_b].
Proof.
  apply (run_checks_summary provider_warm_wet clock two_farms).
  intros i g _. apply provider_warm_wet_succeeds.
Defined.

Lemma run_checks_fetch_failure_witness :
  ∃ (j : nat) (e' : exn) (new : list Alert),
    (j ≤ 1)%nat ∧
    run_checks provider_once clock (Some INTERNAL_TOKEN) two_farms =
      (Raise e', {| farms := [farm_a; farm_b];
                    alerts := [] ++ new;
                    requests := [] ++ (coords <$> take (S j) [farm_a; farm_b]) |}) ∧
    status_code (run_checks provider_once clock (Some INTERNAL_TOKEN) two_farms).1 = 500 ∧
    sweep provider_once clock 0 (take j [farm_a; farm_b]) two_farms =
      (Ok (), {| farms := [farm_a; farm_b];
                 alerts := [] ++ new;
                 requests := [] ++ (coords <$> take j [farm_a; farm_b]) |}) ∧
    (∀ a, a ∈ new →
       ∃ n g, (n < j)%nat ∧ [farm_a; farm_b] !! n = Some g ∧
              alert_farm_id a = farm_id g) ∧
    ((∀ n h, (n < 1)%nat → [farm_a; farm_b] !! n = Some h →
             fetch_succeeds provider_once n h) →
     j = 1%nat ∧ e' = WeatherFetchError).
Proof.
  apply (run_checks_fetch_failure provider_once clock two_farms 1 farm_b
           WeatherFetchError); reflexivity.
Defined.

(** C2 (as stated) fails: with one farm and a provider that answers
    temperature 25, humidity 90 and rain 10, the one alert created carries
    two labels; "Aphids (possible)" is not in its message. *)
Lemma run_checks_warm_wet_without_aphids :
  get_weather provider_warm_wet 0 (latitude farm_a) (longitude farm_a)
    = Ok reading_of_payload ∧
  ∃ a, alerts (run_checks provider_warm_wet clock (Some INTERNAL_TOKEN) one_farm).2 = [a] ∧
       message a = "Farm 'Farm A' potential pests: Powdery mildew (possible); Gray mold / Botrytis (possible)" ∧
       contains POWDERY (message a) = true ∧
       contains GRAY_MOLD (message a) = true ∧
       contains APHIDS (message a) = false.
Proof.
  split; [by vm_compute|]. eexists. split; [by vm_compute|]. by vm_compute.
Qed.

Lemma run_checks_warm_wet_witness :
  ∃ w' new a,
    run_checks provider_warm_wet clock (Some INTERNAL_TOKEN) two_farms =
      (Ok {[ "status" := PStr "done"; "checked" := PInt 2 ]}, w') ∧
    alerts w' = [] ++ new ∧
    filter (λ x, alert_farm_id x = 1) new = [a] ∧
    message a =
      "Farm 'Farm A' potential pests: Powdery mildew (possible); Gray mold / Botrytis (possible)".
Proof.
  apply (run_checks_warm_wet provider_warm_wet clock two_farms 0 farm_a
           reading_of_payload); try by vm_compute.
  - compute_done.
  - intros i g _. apply provider_warm_wet_succeeds.
Defined.

End runs.

(** * More on the rule evaluator *)

Section evaluator_more.

Implicit Types w : gmap string pyval.

Lemma py_lt_is_number (v : pyval) (c : Z) (b : bool) : py_lt v c = Ok b → is_number v.
Proof.
  unfold py_lt. destruct (cmp_int v c) eqn:E; [|done]. intros _.
  by eapply cmp_int_is_number.
Qed.

(** [v < a] and [a <= b] give [v > b] false. *)
Lemma py_lt_not_gt (v : pyval) (a b : Z) :
  py_lt v a = Ok true → a ≤ b → py_gt v b = Ok false.
Proof.
  rewrite py_lt_true. intros H Hab. unfold py_gt.
  by rewrite (cmp_int_lt_mono v a b H Hab).
Qed.

Lemma and_then_false (a b : res bool) :
  a &&& b = Ok false → ¬ (a = Ok true ∧ b = Ok true).
Proof. intros H [-> ->]. done. Qed.

Lemma elem_of_append_if (c : bool) (l : list string) (x y : string) :
  x ∈ append_if c l y ↔ x ∈ l ∨ (c = true ∧ x = y).
Proof.
  destruct c; simpl.
  - rewrite elem_of_app, list_elem_of_singleton. intuition congruence.
  - intuition congruence.
Qed.

Lemma py_cmp_error (v : pyval) (c : Z) (e : exn) :
  (py_gt v c = Raise e → e = TypeError) ∧ (py_lt v c = Raise e → e = TypeError) ∧
  (py_le v c = Raise e → e = TypeError) ∧ (py_ge v c = Raise e → e = TypeError).
Proof.
  unfold py_gt, py_lt, py_le, py_ge.
  destruct (cmp_int v c) as [o|e0] eqn:E; simpl; [done|].
  apply cmp_int_error in E as ->. repeat split; congruence.
Qed.

(** The only exception the evaluator raises is [TypeError]. *)
Lemma evaluate_rules_type_error w (e : exn) :
  evaluate_rules w = Raise e → e = TypeError.
Proof.
  destruct (is_none (humidity w)) eqn:Hh.
  { by rewrite evaluate_rules_none by (right; by apply is_none_true). }
  destruct (is_none (temperature w)) eqn:Ht.
  { by rewrite evaluate_rules_none by (left; by apply is_none_true). }
  rewrite evaluate_rules_present by done.
  destruct (py_gt (humidity w) 80 &&& _) as [c1|e1] eqn:E1; simpl.
  2:{ intros [= <-]. revert E1. apply and_then_error.
      - intros e'. apply py_cmp_error.
      - intros e'. apply and_then_error; intros e''; apply py_cmp_error. }
  destruct (py_gt (temperature w) 30 &&& _) as [c2|e2] eqn:E2; simpl.
  2:{ intros [= <-]. revert E2. apply and_then_error; intros e'; apply py_cmp_error. }
  destruct (py_gt (humidity w) 85 &&& _) as [c3|e3] eqn:E3; simpl; [done|].
  intros [= <-]. revert E3. apply and_then_error; intros e'; apply py_cmp_error.
Qed.

(** The labels of the output, read off the three conditions. *)
Lemma evaluate_rules_labels w (l : list string) :
  evaluate_rules w = Ok l →
  is_none (humidity w) = false → is_none (temperature w) = false →
  ∃ c1 c2 c3,
    py_gt (humidity w) 80 &&& (py_ge (temperature w) 20 &&& py_le (temperature w) 28)
      = Ok c1 ∧
    py_gt (temperature w) 30 &&& py_lt (humidity w) 40 = Ok c2 ∧
    py_gt (humidity w) 85 &&& py_gt (py_or (rain_mm w) (PInt 0)) 5 = Ok c3 ∧
    l = append_if c3 (append_if c2 (append_if c1 [] POWDERY) APHIDS) GRAY_MOLD.
Proof.
  intros H Hh Ht. rewrite evaluate_rules_present in H by done.
  destruct (py_gt (humidity w) 80 &&& _) as [c1|] eqn:E1; [|done].
  destruct (py_gt (temperature w) 30 &&& _) as [c2|] eqn:E2; [|done].
  destruct (py_gt (humidity w) 85 &&& _) as [c3|] eqn:E3; [|done].
  simpl in H. injection H as <-. by exists c1, c2, c3.
Qed.

Lemma and_then_ok_true (a b : res bool) (c : bool) :
  a &&& b = Ok c → (c = true ↔ a = Ok true ∧ b = Ok true).
Proof.
  destruct c.
  - intros H%and_then_true. done.
  - intros H%and_then_false. split; [done|]. intros. by destruct H.
Qed.

(** X1: for every weather dictionary with temperature > 30 and humidity
    < 40 the output is exactly ["Aphids (possible)"], whatever the rain
    entry holds. *)
Theorem aphids_alone w :
  py_gt (temperature w) 30 = Ok true →
  py_lt (humidity w) 40 = Ok true →
  evaluate_rules w = Ok [APHIDS].
Proof.
  intros Ht Hh.
  rewrite evaluate_rules_present
    by (apply is_number_not_none; by eauto using py_gt_is_number, py_lt_is_number).
  rewrite Ht, Hh.
  rewrite (py_lt_not_gt _ 40 80 Hh), (py_lt_not_gt _ 40 85 Hh) by lia.
  reflexivity.
Qed.

Lemma aphids_alone_witness : evaluate_rules reading_hot_dry = Ok [APHIDS].
Proof. apply (aphids_alone reading_hot_dry); by vm_compute. Defined.

(** X2: the output lists labels in rule order without repetition: it is a
    sublist of [Powdery mildew; Aphids; Gray mold]. *)
Theorem labels_in_rule_order w (l : list string) :
  evaluate_rules w = Ok l →
  l `sublist_of` [POWDERY; APHIDS; GRAY_MOLD] ∧ NoDup l.
Proof.
  intros H.
  destruct (is_none (humidity w)) eqn:Hh.
  { rewrite evaluate_rules_none in H by (right; by apply is_none_true).
    injection H as <-. split; [apply sublist_nil_l | constructor]. }
  destruct (is_none (temperature w)) eqn:Ht.
  { rewrite evaluate_rules_none in H by (left; by apply is_none_true).
    injection H as <-. split; [apply sublist_nil_l | constructor]. }
  destruct (evaluate_rules_labels w l H Hh Ht) as (c1 & c2 & c3 & _ & _ & _ & ->).
  destruct c1, c2, c3; simpl;
    (split; [by repeat first [apply sublist_nil_l | apply sublist_skip | apply sublist_cons]
            | compute_done]).
Qed.

Lemma labels_in_rule_order_witness :
  [POWDERY; GRAY_MOLD] `sublist_of` [POWDERY; APHIDS; GRAY_MOLD] ∧
  NoDup [POWDERY; GRAY_MOLD].
Proof. apply (labels_in_rule_order reading_warm_wet). by vm_compute. Defined.

(** X3: a label is in the output exactly when its rule's comparisons all
    hold (and, for Gray mold, temperature is present). *)
Theorem label_iff_thresholds w (l : list string) :
  evaluate_rules w = Ok l →
  (POWDERY ∈ l ↔
     py_gt (humidity w) 80 = Ok true ∧
     py_ge (temperature w) 20 = Ok true ∧ py_le (temperature w) 28 = Ok true) ∧
  (APHIDS ∈ l ↔
     py_gt (temperature w) 30 = Ok true ∧ py_lt (humidity w) 40 = Ok true) ∧
  (GRAY_MOLD ∈ l ↔
     is_none (temperature w) = false ∧
     py_gt (humidity w) 85 = Ok true ∧
     py_gt (py_or (rain_mm w) (PInt 0)) 5 = Ok true).
Proof.
  intros H.
  destruct (is_none (humidity w)) eqn:Hh.
  { rewrite evaluate_rules_none in H by (right; by apply is_none_true).
    injection H as <-. apply is_none_true in Hh. rewrite Hh.
    split; [|split]; (split; [by intros ?%elem_of_nil|]).
    - by intros (? & ? & ?).
    - by intros (? & ?).
    - by intros (? & ? & ?). }
  destruct (is_none (temperature w)) eqn:Ht.
  { rewrite evaluate_rules_none in H by (left; by apply is_none_true).
    injection H as <-. apply is_none_true in Ht. rewrite Ht.
    split; [|split]; (split; [by intros ?%elem_of_nil|]).
    - by intros (? & ? & ?).
    - by intros (? & ?).
    - by intros (? & ? & ?). }
  destruct (evaluate_rules_labels w l H Hh Ht) as (c1 & c2 & c3 & E1 & E2 & E3 & ->).
  apply and_then_ok_true in E1, E2, E3.
  rewrite !elem_of_append_if, !elem_of_nil.
  rewrite <- E2, <- E3.
  assert (c1 = true ↔ py_gt (humidity w) 80 = Ok true ∧
            py_ge (temperature w) 20 = Ok true ∧ py_le (temperature w) 28 = Ok true) as E1'.
  { rewrite E1. by rewrite and_then_true. }
  rewrite <- E1'.
  assert (POWDERY ≠ APHIDS ∧ POWDERY ≠ GRAY_MOLD ∧ APHIDS ≠ GRAY_MOLD) as (? & ? & ?)
    by (by repeat split).
  intuition congruence.
Qed.

Lemma label_iff_thresholds_witness :
  GRAY_MOLD ∈ [POWDERY; GRAY_MOLD] ↔
    is_none (temperature reading_warm_wet) = false ∧
    py_gt (humidity reading_warm_wet) 85 = Ok true ∧
    py_gt (py_or (rain_mm reading_warm_wet) (PInt 0)) 5 = Ok true.
Proof.
  apply (label_iff_thresholds reading_warm_wet [POWDERY; GRAY_MOLD]). by vm_compute.
Defined.

(** X4: the evaluator raises nothing but [TypeError], and never on a
    reading whose fields are numbers or absent. *)
Theorem evaluate_rules_raises w (e : exn) :
  evaluate_rules w = Raise e → e = TypeError ∧ ¬ reading w.
Proof.
  intros H. split; [by eapply evaluate_rules_type_error|].
  intros [l Hl]%evaluate_rules_total. congruence.
Qed.

Lemma evaluate_rules_raises_witness :
  TypeError = TypeError ∧ ¬ reading reading_text_rain.
Proof. apply (evaluate_rules_raises reading_text_rain). by vm_compute. Defined.

(** X5: a rain entry that is missing, [None], zero or otherwise false is
    read as 0: with numeric temperature and humidity the evaluator
    returns, and Gray mold is not in the output. *)
Theorem falsy_rain_no_gray_mold w :
  truthy (rain_mm w) = false →
  is_number (temperature w) → is_number (humidity w) →
  ∃ l, evaluate_rules w = Ok l ∧ GRAY_MOLD ∉ l.
Proof.
  intros Hr Ht Hh.
  rewrite evaluate_rules_present by by apply is_number_not_none.
  unfold py_or. rewrite Hr.
  destruct (py_gt_number _ 80 Hh) as [a1 ->], (py_ge_number _ 20 Ht) as [a2 ->],
    (py_le_number _ 28 Ht) as [a3 ->], (py_gt_number _ 30 Ht) as [a4 ->],
    (py_lt_number _ 40 Hh) as [a5 ->], (py_gt_number _ 85 Hh) as [a6 ->].
  destruct a1, a2, a3, a4, a5, a6; simpl; eexists; (split; [done|]); compute_done.
Qed.

Lemma falsy_rain_no_gray_mold_witness :
  ∃ l, evaluate_rules reading_no_rain = Ok l ∧ GRAY_MOLD ∉ l.
Proof. apply (falsy_rain_no_gray_mold reading_no_rain); by vm_compute. Defined.

End evaluator_more.

(** * More on the weather client *)

Section client_more.

Variable http_get : nat → spec_float → spec_float → option pyval.

(** X6: the client returns exactly for a body that is an object whose
    ["main"] entry is missing or an object; it raises [WeatherFetchError]
    exactly when the request fails and [AttributeError] for every other
    body. *)
Theorem get_weather_outcome (i : nat) (lat lon : spec_float) :
  match get_weather http_get i lat lon with
  | Ok w =>
      ∃ d, http_get i lat lon = Some (PDict d) ∧
           (d !! "main" = None ∨ ∃ m, d !! "main" = Some (PDict m))
  | Raise e =>
      (e = WeatherFetchError ∧ http_get i lat lon = None) ∨
      (e = AttributeError ∧
       ∃ data, http_get i lat lon = Some data ∧
         ((∀ d, data ≠ PDict d) ∨
          ∃ d x, data = PDict d ∧ d !! "main" = Some x ∧ ∀ m, x ≠ PDict m))
  end.
Proof.
  unfold get_weather. destruct (http_get i lat lon) as [data|] eqn:Hget; [|by left].
  destruct (normalize data) as [w|e] eqn:Hn.
  - unfold normalize in Hn. destruct data as [ | | | | | | d]; try done.
    exists d. split; [done|]. simpl in Hn. unfold dict_get_or in Hn.
    destruct (d !! "main") as [x|]; [|by left]. right.
    destruct x; try done. by eexists.
  - right. apply normalize_raises in Hn as [-> Hshape]. split; [done|]. by exists data.
Qed.

(** X7: a returned reading has exactly the keys "temperature", "humidity",
    "rain_mm" and "raw", and "raw" holds the body unchanged. *)
Theorem get_weather_keys (i : nat) (lat lon : spec_float) (w : gmap string pyval) :
  get_weather http_get i lat lon = Ok w →
  dom w = ({[ "temperature"; "humidity"; "rain_mm"; "raw" ]} : gset string) ∧
  http_get i lat lon = Some (dict_get w "raw").
Proof.
  unfold get_weather. destruct (http_get i lat lon) as [data|]; [|done].
  unfold normalize. destruct data as [ | | | | | | d]; try done. simpl.
  destruct (dict_get_or d "main" (PDict ∅)); try done. simpl.
  intros [= <-]. split.
  - rewrite !dom_insert_L, dom_singleton_L. set_solver.
  - unfold dict_get. by simplify_map_eq.
Qed.

(** X8: when the body's "main" holds numbers (or nothing) under "temp" and
    "humidity", and its "rain" entry, if an object, holds a number (or
    nothing) under "1h", the fetch succeeds: the client returns a reading
    on which the rules do not raise.  A "rain" entry of any other shape is
    read as 0. *)
Theorem numeric_body_fetch_succeeds (i : nat) (g : Farm) (d m : gmap string pyval) :
  http_get i (latitude g) (longitude g) = Some (PDict d) →
  dict_get_or d "main" (PDict ∅) = PDict m →
  number_or_none (dict_get m "temp") →
  number_or_none (dict_get m "humidity") →
  (∀ r, d !! "rain" = Some (PDict r) → number_or_none (dict_get_or r "1h" (PInt 0))) →
  fetch_succeeds http_get i g ∧
  ∃ w l, get_weather http_get i (latitude g) (longitude g) = Ok w ∧
         evaluate_rules w = Ok l.
Proof.
  intros Hget Hmain Ht Hh Hr.
  assert (∃ w, get_weather http_get i (latitude g) (longitude g) = Ok w ∧ reading w)
    as (w & Hw & Hread).
  { unfold get_weather. rewrite Hget. unfold normalize. simpl. rewrite Hmain. simpl.
    eexists. split; [done|].
    unfold reading, temperature, humidity, rain_mm, dict_get, dict_get_or.
    simplify_map_eq. split; [done|]. split; [done|].
    destruct (d !! "rain") as [[]|] eqn:E; try done. by apply Hr. }
  split; [by exists w|].
  destruct (evaluate_rules_total w Hread) as [l Hl]. by exists w, l.
Qed.

End client_more.

Lemma get_weather_keys_witness :
  dom reading_of_payload
    = ({[ "temperature"; "humidity"; "rain_mm"; "raw" ]} : gset string) ∧
  provider_warm_wet 0 (latitude farm_a) (longitude farm_a)
    = Some (dict_get reading_of_payload "raw").
Proof.
  apply (get_weather_keys provider_warm_wet 0 (latitude farm_a) (longitude farm_a)).
  apply provider_warm_wet_reading.
Defined.

Lemma numeric_body_fetch_succeeds_witness :
  fetch_succeeds provider_warm_wet 0 farm_a ∧
  ∃ w l, get_weather provider_warm_wet 0 (latitude farm_a) (longitude farm_a) = Ok w ∧
         evaluate_rules w = Ok l.
Proof.
  apply (numeric_body_fetch_succeeds provider_warm_wet 0 farm_a body_warm_wet
           main_warm_wet); try done.
  intros r [= <-]. done.
Defined.

(** * More on the check sweep *)

Section sweep_more.

Variable http_get : nat → spec_float → spec_float → option pyval.
Variable utcnow : nat → Z.

#[local] Abbreviation get_weather := (get_weather http_get).
#[local] Abbreviation check_farm := (check_farm http_get utcnow).
#[local] Abbreviation sweep := (sweep http_get utcnow).
#[local] Abbreviation run_checks := (run_checks http_get utcnow).

#[local] Abbreviation alert_from := (alert_from http_get utcnow).

(** ** One farm *)

Lemma check_farm_step (i : nat) (g : Farm) (w w1 : world) (r : res unit) :
  check_farm i g w = (r, w1) →
  farms w1 = farms w ∧
  requests w1 = requests w ++ [coords g] ∧
  (alerts w1 = alerts w ∨
   ∃ weather pests,
     r = Ok () ∧
     get_weather i (latitude g) (longitude g) = Ok weather ∧
     evaluate_rules weather = Ok pests ∧ pests ≠ [] ∧
     alerts w1 = alerts w ++ [alert_for utcnow i g pests (alerts w)]).
Proof.
  destruct r as [[]|e]; intros H.
  - apply check_farm_ok in H as (weather & pests & Hg & He & Hf & Hr & Ha).
    split; [done|]. split; [done|]. destruct pests as [|p ps].
    + left. by rewrite Ha, app_nil_r.
    + right. by exists weather, (p :: ps).
  - apply check_farm_raises in H as [-> _]. split; [done|]. split; [done|]. by left.
Qed.

(** ** The loop, whatever its outcome *)

Lemma sweep_frame (fs : list Farm) (i : nat) (w w' : world) (r : res unit) :
  sweep i fs w = (r, w') →
  farms w' = farms w ∧
  (∃ n, (n ≤ length fs)%nat ∧ requests w' = requests w ++ (coords <$> take n fs)) ∧
  ∃ new, alerts w' = alerts w ++ new ∧
         (alert_farm_id <$> new) `sublist_of` (farm_id <$> fs) ∧
         ∀ a, a ∈ new → alert_from fs i a.
Proof.
  revert i w. induction fs as [|g fs IH]; intros i w; simpl.
  - intros [= <- <-]. split; [done|]. split.
    + exists 0%nat. by rewrite app_nil_r.
    + exists []. rewrite app_nil_r. split; [done|]. split; [done|].
      by intros a ?%elem_of_nil.
  - destruct (check_farm i g w) as [r1 w1] eqn:Hc.
    pose proof (check_farm_step _ _ _ _ _ Hc) as (Hf & Hr & Ha).
    assert (∃ new1, alerts w1 = alerts w ++ new1 ∧
              (alert_farm_id <$> new1) `sublist_of` [farm_id g] ∧
              ∀ a, a ∈ new1 → alert_from (g :: fs) i a) as (new1 & Ha1 & Hs1 & Hp1).
    { destruct Ha as [Ha | (weather & pests & _ & Hg & He & Hne & Ha)].
      - exists []. rewrite app_nil_r. split; [done|]. split; [apply sublist_nil_l|].
        by intros a ?%elem_of_nil.
      - eexists [_]. split; [done|]. split; [done|].
        intros a ->%list_elem_of_singleton.
        exists 0%nat, g, weather, pests. rewrite Nat.add_0_r. by repeat split. }
    destruct r1 as [[]|e].
    + intros (Hf' & (n & Hn & Hr') & new & Ha' & Hs & Hp)%IH.
      split; [congruence|]. split.
      { exists (S n). split; [lia|]. by rewrite Hr', Hr, <- app_assoc. }
      exists (new1 ++ new). split; [by rewrite Ha', Ha1, <- app_assoc|]. split.
      { rewrite fmap_app. by apply (sublist_app _ [farm_id g]). }
      intros a [Hin|Hin]%elem_of_app; [by apply Hp1|].
      destruct (Hp a Hin) as (m & h & weather & pests & Hm & Hg & Hrest).
      exists (S m), h, weather, pests. rewrite Nat.add_succ_r. by split.
    + intros [= <- <-]. split; [done|]. split.
      { exists 1%nat. split; [lia|]. by rewrite Hr. }
      exists new1. split; [done|]. split; [|done].
      etrans; [done|]. by apply sublist_skip, sublist_nil_l.
Qed.

(** ** Alert keys *)

Lemma foldr_max_ge (l : list Z) (x : Z) : x ∈ l → x ≤ foldr Z.max 0 l.
Proof.
  induction l as [|y l IH]; [by intros ?%elem_of_nil|].
  intros [->|Hin]%elem_of_cons; simpl; [lia|]. specialize (IH Hin). lia.
Qed.

Lemma foldr_max_nonneg (l : list Z) : 0 ≤ foldr Z.max 0 l.
Proof. induction l; simpl; lia. Qed.

Lemma next_alert_id_fresh (rows : list Alert) :
  0 < next_alert_id rows ∧ ∀ a, a ∈ rows → alert_id a < next_alert_id rows.
Proof.
  unfold next_alert_id. split; [pose proof (foldr_max_nonneg (alert_id <$> rows)); lia|].
  intros a Ha. assert (alert_id a ≤ foldr Z.max 0 (alert_id <$> rows)); [|lia].
  apply foldr_max_ge, list_elem_of_fmap. by exists a.
Qed.

Lemma alert_ids_snoc (rows : list Alert) (a : Alert) :
  alert_id a = next_alert_id rows →
  NoDup (alert_id <$> rows) → NoDup (alert_id <$> rows ++ [a]).
Proof.
  intros Hid Hnd. rewrite fmap_app. apply NoDup_app. split; [done|]. split.
  - intros x (b & -> & Hb)%list_elem_of_fmap Hx. simpl in Hx.
    apply list_elem_of_singleton in Hx.
    pose proof (next_alert_id_fresh rows) as [_ Hfresh]. specialize (Hfresh b Hb). lia.
  - simpl. apply NoDup_singleton.
Qed.

(** A property of pairs of states that holds across every farm's check
    holds across the loop. *)
Lemma sweep_preserves (Q : world → world → Prop) :
  (∀ w, Q w w) →
  (∀ w1 w2 w3, Q w1 w2 → Q w2 w3 → Q w1 w3) →
  (∀ i g w r w1, check_farm i g w = (r, w1) → Q w w1) →
  ∀ fs i w r w', sweep i fs w = (r, w') → Q w w'.
Proof.
  intros Hrefl Htrans Hstep fs. induction fs as [|g fs IH]; intros i w r w'; simpl.
  - by intros [= <- <-].
  - destruct (check_farm i g w) as [[[]|e] w1] eqn:Hc.
    + intros H%IH. eapply Htrans; [|done]. by eapply Hstep.
    + intros [= <- <-]. by eapply Hstep.
Qed.

Lemma sweep_alert_ids (fs : list Farm) (i : nat) (w w' : world) (r : res unit) :
  sweep i fs w = (r, w') →
  (NoDup (alert_id <$> alerts w) → NoDup (alert_id <$> alerts w')) ∧
  ((∀ a, a ∈ alerts w → 0 < alert_id a) → ∀ a, a ∈ alerts w' → 0 < alert_id a).
Proof.
  apply (sweep_preserves (λ w w',
    (NoDup (alert_id <$> alerts w) → NoDup (alert_id <$> alerts w')) ∧
    ((∀ a, a ∈ alerts w → 0 < alert_id a) → ∀ a, a ∈ alerts w' → 0 < alert_id a))).
  - done.
  - intros w1 w2 w3 [H1 H1'] [H2 H2']. split; auto.
  - intros j g w0 r0 w1 (_ & _ & Ha)%check_farm_step.
    destruct Ha as [-> | (weather & pests & _ & _ & _ & _ & ->)]; [done|]. split.
    + by apply alert_ids_snoc.
    + intros Hpos a [Hin | ->%list_elem_of_singleton]%elem_of_app; [by apply Hpos|].
      simpl. apply next_alert_id_fresh.
Qed.

Lemma sweep_raises (fs : list Farm) (i : nat) (w w' : world) (e : exn) :
  sweep i fs w = (Raise e, w') → loop_error e.
Proof.
  revert i w. induction fs as [|g fs IH]; intros i w; simpl; [done|].
  destruct (check_farm i g w) as [[[]|e0] w1] eqn:Hc.
  - apply IH.
  - intros [= <- <-]. by apply check_farm_raises in Hc as [_ ?].
Qed.

(** ** The endpoint, whatever its outcome *)

Lemma run_checks_cases (token : option string) (w : world) :
  (token ≠ Some INTERNAL_TOKEN ∧
   run_checks token w = (Raise (HTTPException 403 "forbidden"), w)) ∨
  (token = Some INTERNAL_TOKEN ∧
   ∃ w', (sweep 0 (farms w) w = (Ok (), w') ∧
          run_checks token w =
            (Ok {[ "status" := PStr "done";
                   "checked" := PInt (Z.of_nat (length (farms w))) ]}, w')) ∨
         (∃ e, loop_error e ∧ sweep 0 (farms w) w = (Raise e, w') ∧
               run_checks token w = (Raise e, w'))).
Proof.
  destruct (decide (token = Some INTERNAL_TOKEN)) as [->|Hne].
  - right. split; [done|]. rewrite run_checks_authorized.
    destruct (sweep 0 (farms w) w) as [[[]|e] w'] eqn:Hs.
    + exists w'. by left.
    + exists w'. right. exists e. split; [by eapply sweep_raises|done].
  - left. split; [done|]. unfold run_checks. by rewrite bool_decide_eq_true_2.
Qed.

Lemma run_checks_frame (token : option string) (w : world) :
  ∃ new,
    farms (run_checks token w).2 = farms w ∧
    alerts (run_checks token w).2 = alerts w ++ new ∧
    (alert_farm_id <$> new) `sublist_of` (farm_id <$> farms w) ∧
    (∃ n, (n ≤ length (farms w))%nat ∧
          requests (run_checks token w).2
            = requests w ++ (coords <$> take n (farms w))) ∧
    ∀ a, a ∈ new → token = Some INTERNAL_TOKEN ∧ alert_from (farms w) 0 a.
Proof.
  destruct (run_checks_cases token w) as [[_ ->] | [-> (w' & Hrc)]]; simpl.
  - exists []. rewrite app_nil_r. do 2 (split; [done|]).
    split; [apply sublist_nil_l|]. split; [|by intros a ?%elem_of_nil].
    exists 0%nat. split; [lia|]. by rewrite app_nil_r.
  - assert (∃ r, sweep 0 (farms w) w = (r, w') ∧
                 (run_checks (Some INTERNAL_TOKEN) w).2 = w') as (r & Hs & ->).
    { destruct Hrc as [[Hs ->] | (e & _ & Hs & ->)]; eauto. }
    apply sweep_frame in Hs as (Hf & Hreq & new & Ha & Hsub & Hp).
    exists new. do 4 (split; [done|]). intros a Hin. split; [done|]. by apply Hp.
Qed.

(** X9: whatever the token and the outcome, [run_checks] leaves the farm
    table as it is and only appends to the alert table; the farms of the
    appended alerts follow table order, at most one alert per farm row, and
    the requests sent are those for a prefix of the table. *)
Theorem run_checks_appends (token : option string) (w : world) :
  ∃ new,
    farms (run_checks token w).2 = farms w ∧
    alerts (run_checks token w).2 = alerts w ++ new ∧
    (alert_farm_id <$> new) `sublist_of` (farm_id <$> farms w) ∧
    (length new ≤ length (farms w))%nat ∧
    ∃ n, (n ≤ length (farms w))%nat ∧
         requests (run_checks token w).2 = requests w ++ (coords <$> take n (farms w)).
Proof.
  destruct (run_checks_frame token w) as (new & Hf & Ha & Hsub & Hreq & _).
  exists new. do 3 (split; [done|]). split; [|done].
  apply sublist_length in Hsub. by rewrite !length_fmap in Hsub.
Qed.

(** X10: every alert [run_checks] adds was written under the correct
    token for a farm of the table whose fetch returned a reading that
    matched at least one rule; it carries that farm's key, the message
    composed from the farm's name and the matched labels, and the clock's
    time for that farm. *)
Theorem run_checks_alert_provenance (token : option string) (w : world)
    (new : list Alert) (a : Alert) :
  alerts (run_checks token w).2 = alerts w ++ new →
  a ∈ new →
  token = Some INTERNAL_TOKEN ∧ alert_from (farms w) 0 a.
Proof.
  intros Hnew Ha.
  destruct (run_checks_frame token w) as (new' & _ & Ha' & _ & _ & Hp).
  rewrite Ha' in Hnew. apply app_inv_head in Hnew as <-. by apply Hp.
Qed.

Lemma run_checks_references (token : option string) (w : world) :
  alerts_reference_farms w → alerts_reference_farms (run_checks token w).2.
Proof.
  intros Href.
  destruct (run_checks_frame token w) as (new & Hf & Ha & _ & _ & Hp).
  intros a. rewrite Ha, Hf. intros [Hin|Hin]%elem_of_app; [by apply Href|].
  destruct (Hp a Hin) as (_ & n & g & _ & _ & Hg & _ & _ & _ & Hid & _).
  exists g. split; [|done]. apply list_elem_of_lookup. eauto.
Qed.

(** X11: if every alert refers to a stored farm before [run_checks], so
    does every alert after it, whatever the token and the outcome. *)
Theorem run_checks_keeps_references (token : option string) (w : world) :
  alerts_reference_farms w → alerts_reference_farms (run_checks token w).2.
Proof. apply run_checks_references. Qed.

Lemma run_checks_alert_ids (token : option string) (w : world) :
  NoDup (alert_id <$> alerts w) →
  (∀ a, a ∈ alerts w → 0 < alert_id a) →
  NoDup (alert_id <$> alerts (run_checks token w).2) ∧
  ∀ a, a ∈ alerts (run_checks token w).2 → 0 < alert_id a.
Proof.
  intros Hnd Hpos.
  destruct (run_checks_cases token w)
    as [[_ ->] | [_ (w' & [[Hs ->] | (e & _ & Hs & ->)])]]; simpl; [done | |];
    apply sweep_alert_ids in Hs as [H1 H2]; auto.
Qed.


Lemma sweep_ok_checked (fs : list Farm) (i : nat) (w w' : world) :
  sweep i fs w = (Ok (), w') →
  ∀ n g, fs !! n = Some g →
    ∃ weather pests,
      get_weather (i + n) (latitude g) (longitude g) = Ok weather ∧
      evaluate_rules weather = Ok pests.
Proof.
  revert i w. induction fs as [|g0 fs IH]; intros i w; simpl; [by intros _ n g ?|].
  destruct (check_farm i g0 w) as [[[]|e] w1] eqn:Hc; [|done].
  intros Hs [|n] g Hn; simpl in Hn.
  - injection Hn as <-. rewrite Nat.add_0_r.
    apply check_farm_ok in Hc as (weather & pests & ? & ? & _). eauto.
  - rewrite Nat.add_succ_r. by eapply (IH (S i)).
Qed.

(** X13: a normal return of [run_checks] means that the token was the
    secret, that every farm of the table was requested once, in table
    order, that every fetch returned and the rules raised on none of the
    readings, and that "checked" counts the farms. *)
Theorem run_checks_done (token : option string) (w w' : world)
    (summary : gmap string pyval) :
  run_checks token w = (Ok summary, w') →
  token = Some INTERNAL_TOKEN ∧
  summary = {[ "status" := PStr "done";
               "checked" := PInt (Z.of_nat (length (farms w))) ]} ∧
  requests w' = requests w ++ (coords <$> farms w) ∧
  ∀ n g, farms w !! n = Some g →
    ∃ weather pests,
      get_weather n (latitude g) (longitude g) = Ok weather ∧
      evaluate_rules weather = Ok pests.
Proof.
  intros Hrc.
  destruct (run_checks_cases token w)
    as [[_ H] | [-> (w1 & [[Hs H] | (e & _ & Hs & H)])]];
    rewrite H in Hrc; try done.
  injection Hrc as <- <-. split; [done|]. split; [done|]. split.
  - by apply sweep_ok_frame in Hs as (_ & ? & _).
  - intros n g Hn. by apply (sweep_ok_checked _ 0 _ _ Hs).
Qed.

Lemma sweep_no_match (fs : list Farm) (i : nat) (w : world) :
  (∀ n g, fs !! n = Some g →
     ∃ weather, get_weather (i + n) (latitude g) (longitude g) = Ok weather ∧
                evaluate_rules weather = Ok []) →
  sweep i fs w = (Ok (), {| farms := farms w; alerts := alerts w;
                            requests := requests w ++ (coords <$> fs) |}).
Proof.
  revert i w. induction fs as [|g fs IH]; intros i w Hall; simpl.
  - rewrite app_nil_r. by destruct w.
  - destruct (Hall 0%nat g eq_refl) as (weather & Hg & He).
    rewrite Nat.add_0_r in Hg. unfold check_farm. rewrite Hg, He.
    rewrite IH.
    + simpl. by rewrite <- app_assoc.
    + intros n h Hn. specialize (Hall (S n) h Hn). by rewrite Nat.add_succ_r in Hall.
Qed.

(** X14: when no farm's reading matches a rule, [run_checks] returns
    normally and writes no alert. *)
Theorem run_checks_no_match (w : world) :
  (∀ n g, farms w !! n = Some g →
     ∃ weather, get_weather n (latitude g) (longitude g) = Ok weather ∧
                evaluate_rules weather = Ok []) →
  run_checks (Some INTERNAL_TOKEN) w =
    (Ok {[ "status" := PStr "done";
           "checked" := PInt (Z.of_nat (length (farms w))) ]},
     {| farms := farms w; alerts := alerts w;
        requests := requests w ++ (coords <$> farms w) |}).
Proof.
  intros Hall. rewrite run_checks_authorized. by rewrite (sweep_no_match _ 0 w Hall).
Qed.

(** X15: the response status is 200, 403 or 500; it is 403 exactly when
    the token differs from the secret, and then the state is unchanged. *)
Theorem run_checks_status (token : option string) (w : world) :
  (status_code (run_checks token w).1 = 200 ∨
   status_code (run_checks token w).1 = 403 ∨
   status_code (run_checks token w).1 = 500) ∧
  (status_code (run_checks token w).1 = 403 ↔ token ≠ Some INTERNAL_TOKEN) ∧
  (status_code (run_checks token w).1 = 403 → (run_checks token w).2 = w).
Proof.
  destruct (run_checks_cases token w)
    as [[Hne ->] | [-> (w' & [[Hs ->] | (e & He & Hs & ->)])]]; simpl.
  - split; [by right; left|]. done.
  - split; [by left|]. split; [|done]. split; [done|]. by intros [].
  - rewrite (loop_error_status (A:=gmap string pyval) e He).
    split; [by right; right|]. split; [|done]. split; [done|]. by intros [].
Qed.

End sweep_more.

Lemma run_checks_alert_provenance_witness :
  Some INTERNAL_TOKEN = Some INTERNAL_TOKEN ∧
  alert_from provider_warm_wet clock [farm_a; farm_b] 0
    (alert_for clock 0 farm_a [POWDERY; GRAY_MOLD] []).
Proof.
  apply (run_checks_alert_provenance provider_warm_wet clock (Some INTERNAL_TOKEN)
           two_farms
           [alert_for clock 0 farm_a [POWDERY; GRAY_MOLD] [];
            alert_for clock 1 farm_b [POWDERY; GRAY_MOLD]
              [alert_for clock 0 farm_a [POWDERY; GRAY_MOLD] []]]).
  - vm_compute. reflexivity.
  - by left.
Defined.

Lemma run_checks_keeps_references_witness :
  alerts_reference_farms
    (run_checks provider_warm_wet clock (Some INTERNAL_TOKEN) two_farms_one_alert).2.
Proof.
  apply (run_checks_keeps_references provider_warm_wet clock (Some INTERNAL_TOKEN)
           two_farms_one_alert).
  intros a ->%list_elem_of_singleton. exists farm_a. split; [by left | reflexivity].
Defined.


Lemma run_checks_no_match_witness :
  run_checks provider_mild clock (Some INTERNAL_TOKEN) two_farms =
    (Ok {[ "status" := PStr "done"; "checked" := PInt 2 ]},
     {| farms := [farm_a; farm_b]; alerts := [];
        requests := [] ++ (coords <$> [farm_a; farm_b]) |}).
Proof.
  apply (run_checks_no_match provider_mild clock two_farms).
  intros n g _. eexists. split; vm_compute; reflexivity.
Defined.

Lemma run_checks_done_witness :
  Some INTERNAL_TOKEN = Some INTERNAL_TOKEN ∧
  ({[ "status" := PStr "done"; "checked" := PInt 2 ]} : gmap string pyval) =
    {[ "status" := PStr "done"; "checked" := PInt (Z.of_nat (length (farms two_farms))) ]} ∧
  requests (run_checks provider_mild clock (Some INTERNAL_TOKEN) two_farms).2
    = requests two_farms ++ (coords <$> farms two_farms) ∧
  ∀ n g, farms two_farms !! n = Some g →
    ∃ weather pests,
      get_weather provider_mild n (latitude g) (longitude g) = Ok weather ∧
      evaluate_rules weather = Ok pests.
Proof.
  apply (run_checks_done provider_mild clock (Some INTERNAL_TOKEN) two_farms).
  vm_compute. reflexivity.
Defined.

(** * The farm endpoints *)

Section farms_more.

Lemma next_farm_id_fresh (rows : list Farm) :
  0 < next_farm_id rows ∧ ∀ g, g ∈ rows → farm_id g < next_farm_id rows.
Proof.
  unfold next_farm_id. split; [pose proof (foldr_max_nonneg (farm_id <$> rows)); lia|].
  intros g Hg. assert (farm_id g ≤ foldr Z.max 0 (farm_id <$> rows)); [|lia].
  apply foldr_max_ge, list_elem_of_fmap. by exists g.
Qed.

Lemma create_farm_farm_ids (name : string) (lat lon : spec_float) (w : world) :
  NoDup (farm_id <$> farms w) →
  NoDup (farm_id <$> farms (create_farm name lat lon w).2).
Proof.
  intros Hnd. simpl. rewrite fmap_app. apply NoDup_app. split; [done|]. split.
  - intros x (g & -> & Hg)%list_elem_of_fmap Hx. simpl in Hx.
    apply list_elem_of_singleton in Hx.
    pose proof (next_farm_id_fresh (farms w)) as [_ Hfresh].
    specialize (Hfresh g Hg). lia.
  - simpl. apply NoDup_singleton.
Qed.

Lemma create_farm_references (name : string) (lat lon : spec_float) (w : world) :
  alerts_reference_farms w → alerts_reference_farms (create_farm name lat lon w).2.
Proof.
  intros Href a Ha. destruct (Href a Ha) as (g & Hg & Hid).
  exists g. split; [|done]. simpl. apply elem_of_app. by left.
Qed.


(** X17: [create_farm] keeps the farm keys distinct, and keeps every alert
    referring to a stored farm. *)
Theorem create_farm_keeps_invariants (name : string) (lat lon : spec_float) (w : world) :
  NoDup (farm_id <$> farms w) →
  alerts_reference_farms w →
  NoDup (farm_id <$> farms (create_farm name lat lon w).2) ∧
  alerts_reference_farms (create_farm name lat lon w).2.
Proof.
  intros Hnd Href. split; [by apply create_farm_farm_ids | by apply create_farm_references].
Qed.

Lemma create_farm_keeps_invariants_witness :
  NoDup (farm_id <$> farms (create_farm "Farm C" (S754_zero false) (S754_zero true)
                              two_farms_one_alert).2) ∧
  alerts_reference_farms (create_farm "Farm C" (S754_zero false) (S754_zero true)
                            two_farms_one_alert).2.
Proof.
  apply (create_farm_keeps_invariants "Farm C" (S754_zero false) (S754_zero true)
           two_farms_one_alert).
  - compute_done.
  - intros a ->%list_elem_of_singleton. exists farm_a. split; [by left | reflexivity].
Defined.

(** X18: in every state the service reaches from empty tables by creating
    farms and running the checks, with any tokens, provider answers and
    clock, the farm keys are distinct and positive, the alert keys are
    distinct and positive, and every alert refers to a stored farm. *)
Theorem reachable_invariant (w : world) :
  reachable w →
  NoDup (farm_id <$> farms w) ∧
  (∀ g, g ∈ farms w → 0 < farm_id g) ∧
  NoDup (alert_id <$> alerts w) ∧
  (∀ a, a ∈ alerts w → 0 < alert_id a) ∧
  alerts_reference_farms w.
Proof.
  induction 1 as [ | w name lat lon _ (Hf & Hfp & Ha & Hap & Href)
                   | w http_get utcnow token _ (Hf & Hfp & Ha & Hap & Href) ].
  - simpl. repeat split; try constructor; by intros ? ?%elem_of_nil.
  - split; [by apply create_farm_farm_ids|]. split.
    { simpl. intros g [Hg | ->%list_elem_of_singleton]%elem_of_app; [by apply Hfp|].
      apply next_farm_id_fresh. }
    split; [done|]. split; [done|]. by apply create_farm_references.
  - destruct (run_checks_frame http_get utcnow token w) as (new & Hfarms & _).
    rewrite Hfarms. split; [done|]. split; [done|].
    destruct (run_checks_alert_ids http_get utcnow token w Ha Hap) as [? ?].
    split; [done|]. split; [done|].
    by apply run_checks_references.
Qed.

Lemma reachable_invariant_witness :
  NoDup (farm_id <$> farms
           (run_checks provider_mild clock (Some INTERNAL_TOKEN)
              (create_farm "Farm A" (S754_zero false) (S754_zero false) no_tables).2).2) ∧
  (∀ g, g ∈ farms
           (run_checks provider_mild clock (Some INTERNAL_TOKEN)
              (create_farm "Farm A" (S754_zero false) (S754_zero false) no_tables).2).2 →
        0 < farm_id g) ∧
  NoDup (alert_id <$> alerts
           (run_checks provider_mild clock (Some INTERNAL_TOKEN)
              (create_farm "Farm A" (S754_zero false) (S754_zero false) no_tables).2).2) ∧
  (∀ a, a ∈ alerts
           (run_checks provider_mild clock (Some INTERNAL_TOKEN)
              (create_farm "Farm A" (S754_zero false) (S754_zero false) no_tables).2).2 →
        0 < alert_id a) ∧
  alerts_reference_farms
    (run_checks provider_mild clock (Some INTERNAL_TOKEN)
       (create_farm "Farm A" (S754_zero false) (S754_zero false) no_tables).2).2.
Proof.
  apply (reachable_invariant
           (run_checks provider_mild clock (Some INTERNAL_TOKEN)
              (create_farm "Farm A" (S754_zero false) (S754_zero false) no_tables).2).2).
  apply reachable_run_checks, reachable_create_farm, reachable_empty.
Defined.

End farms_more.

(** * More on the alert listing *)

Section listing_more.

#[local] Instance newer_first_transitive : Transitive newer_first.
Proof. unfold newer_first. intros a b c. lia. Qed.

#[local] Instance newer_first_connex : Total newer_first.
Proof. unfold newer_first. intros a b. lia. Qed.

Lemma list_alerts_split (w : world) :
  merge_sort newer_first (alerts w)
    = list_alerts w ++ drop 100 (merge_sort newer_first (alerts w)).
Proof. unfold list_alerts. by rewrite take_drop. Qed.

(** X19: the listing keeps the newest rows: the table is the listing
    together with the rows left out, and no row left out is newer than a
    listed one. *)
Theorem list_alerts_keeps_newest (w : world) :
  ∃ rest, alerts w ≡ₚ list_alerts w ++ rest ∧
          ∀ a b, a ∈ list_alerts w → b ∈ rest → timestamp b ≤ timestamp a.
Proof.
  exists (drop 100 (merge_sort newer_first (alerts w))). split.
  - rewrite <- list_alerts_split. by rewrite merge_sort_Permutation.
  - intros a b Ha Hb.
    pose proof (StronglySorted_merge_sort newer_first (alerts w)) as Hs.
    rewrite list_alerts_split in Hs.
    by apply (StronglySorted_app_1_elem_of _ _ _ a b Hs).
Qed.

(** X20: a table of at most 100 alerts is listed whole: the listing is a
    rearrangement of the table. *)
Theorem list_alerts_small_table (w : world) :
  (length (alerts w) ≤ 100)%nat → list_alerts w ≡ₚ alerts w.
Proof.
  intros Hlen. unfold list_alerts. rewrite take_ge.
  - apply merge_sort_Permutation.
  - by rewrite (merge_sort_Permutation newer_first (alerts w)).
Qed.

Lemma list_alerts_small_table_witness : list_alerts three_alerts ≡ₚ alerts three_alerts.
Proof. apply (list_alerts_small_table three_alerts). simpl. lia. Defined.

(** X21: when the table is not empty, the first row listed has the
    largest timestamp of the table. *)
Theorem list_alerts_head_newest (w : world) :
  alerts w ≠ [] →
  ∃ a, head (list_alerts w) = Some a ∧ a ∈ alerts w ∧
       ∀ b, b ∈ alerts w → timestamp b ≤ timestamp a.
Proof.
  intros Hne.
  pose proof (merge_sort_Permutation newer_first (alerts w)) as Hperm.
  pose proof (StronglySorted_merge_sort newer_first (alerts w)) as Hs.
  unfold list_alerts.
  destruct (merge_sort newer_first (alerts w)) as [|a l] eqn:E.
  { symmetry in Hperm. by apply Permutation_nil_r in Hperm. }
  exists a. split; [done|]. split; [rewrite <- Hperm; by left|].
  intros b Hb. rewrite <- Hperm in Hb.
  apply elem_of_cons in Hb as [-> | Hb]; [lia|].
  apply StronglySorted_inv in Hs as [_ Hall].
  rewrite Forall_forall in Hall. by apply Hall.
Qed.

Lemma list_alerts_head_newest_witness :
  ∃ a, head (list_alerts three_alerts) = Some a ∧ a ∈ alerts three_alerts ∧
       ∀ b, b ∈ alerts three_alerts → timestamp b ≤ timestamp a.
Proof. apply (list_alerts_head_newest three_alerts). done. Defined.

End listing_more.

(** * What is stored does not matter to a sweep *)

Section independence.

Variable http_get : nat → spec_float → spec_float → option pyval.
Variable utcnow : nat → Z.

#[local] Abbreviation check_farm := (check_farm http_get utcnow).
#[local] Abbreviation sweep := (sweep http_get utcnow).
#[local] Abbreviation run_checks := (run_checks http_get utcnow).

(** Two sweeps of the same farms from the same position end alike and add
    alerts of the same content, whatever the alert tables hold. *)
Lemma sweep_independent (fs : list Farm) (i : nat) (w1 w2 : world) :
  ∃ new1 new2,
    (sweep i fs w1).1 = (sweep i fs w2).1 ∧
    alerts (sweep i fs w1).2 = alerts w1 ++ new1 ∧
    alerts (sweep i fs w2).2 = alerts w2 ++ new2 ∧
    alert_content <$> new1 = alert_content <$> new2.
Proof.
  revert i w1 w2. induction fs as [|g fs IH]; intros i w1 w2; simpl.
  { exists [], []. by rewrite !app_nil_r. }
  unfold check_farm.
  destruct (get_weather http_get i (latitude g) (longitude g)) as [weather|e]; simpl.
  2:{ exists [], []. by rewrite !app_nil_r. }
  destruct (evaluate_rules weather) as [[|p ps]|e]; simpl.
  - destruct (IH (S i) (log_request g w1) (log_request g w2))
      as (new1 & new2 & Hr & H1 & H2 & Hc).
    by exists new1, new2.
  - destruct (IH (S i)
                (add_alert utcnow i g (compose_message g (p :: ps)) (log_request g w1))
                (add_alert utcnow i g (compose_message g (p :: ps)) (log_request g w2)))
      as (new1 & new2 & Hr & H1 & H2 & Hc).
    simpl in H1, H2. rewrite <- app_assoc in H1, H2.
    eexists (_ :: new1), (_ :: new2). split; [done|]. split; [exact H1|].
    split; [exact H2|]. rewrite !fmap_cons. by rewrite Hc.
  - exists [], []. by rewrite !app_nil_r.
Qed.

(** X22: nothing is suppressed or de-duplicated: a second [run_checks]
    with the same token, provider answers and clock ends like the first
    and appends alerts with the same farms, messages and timestamps
    again. *)
Theorem run_checks_twice (token : option string) (w : world) :
  ∃ new new',
    alerts (run_checks token w).2 = alerts w ++ new ∧
    alerts (run_checks token (run_checks token w).2).2 = alerts w ++ new ++ new' ∧
    alert_content <$> new' = alert_content <$> new ∧
    status_code (run_checks token (run_checks token w).2).1
      = status_code (run_checks token w).1.
Proof.
  destruct (decide (token = Some INTERNAL_TOKEN)) as [->|Hne].
  - rewrite !run_checks_authorized.
    assert (farms (match sweep 0 (farms w) w with
                   | (Ok _, w') => (Ok ({[ "status" := PStr "done";
                        "checked" := PInt (Z.of_nat (length (farms w))) ]}
                        : gmap string pyval), w')
                   | (Raise e, w') => (Raise e, w')
                   end).2 = farms w) as Hf.
    { destruct (sweep 0 (farms w) w) as [[[]|e] w'] eqn:Hs; simpl;
        by apply sweep_frame in Hs as [? _]. }
    rewrite Hf.
    destruct (sweep_independent (farms w) 0 w (sweep 0 (farms w) w).2)
      as (new & new' & Hr & H1 & H2 & Hc).
    exists new, new'.
    destruct (sweep 0 (farms w) w) as [[[]|e] w'] eqn:Hs; simpl in *;
      destruct (sweep 0 (farms w) w') as [[[]|e'] w''] eqn:Hs'; simpl in *;
      try done; rewrite H2, H1, <- app_assoc; repeat split; try done.
    by injection Hr as ->.
  - destruct (run_checks_cases http_get utcnow token w) as [[_ H] | [? _]]; [|done].
    rewrite H. simpl. rewrite H. simpl.
    exists [], []. by rewrite !app_nil_r.
Qed.

End independence.
